(** * Signaling gateway and peer orchestrator of the video-calling app

    Shallow embedding of
    - the NestJS gateway [SignalingGateway] (backend signaling.gateway.ts,
      here [src/unnamed/part_000]) together with the part of socket.io that
      it relies on: the set of connected sockets and the adapter's rooms,
      which [server.to(x)] addresses;
    - the client component [VideoCall] ([src/unnamed/part_004]): the
      [peersRef] map of [PeerConnection] records, the browser's
      [RTCPeerConnection] objects they point to, the socket handlers and the
      socket effect with its [cleanup]. *)

From Stdlib Require Import String List Bool Arith Lia.
From stdpp Require base gmap strings.
Import ListNotations.
Open Scope string_scope.
Open Scope list_scope.

(* ================================================================== *)
(** ** Server: [SignalingGateway] *)
(* ================================================================== *)

Module Server.

(** Messages the server emits ([server.to(..).emit] / [client.emit]). *)
Inductive msg :=
| UserJoined (userId : string)
| UserLeft (userId : string)
| RoomUsers (users : list string)
| OfferMsg (offer : string) (from : string)
| AnswerMsg (answer : string) (from : string)
| IceMsg (candidate : string) (from : string).

(** A JS [Set<string>] in insertion order. *)
Definition set_has (u : string) (s : list string) : bool :=
  existsb (String.eqb u) s.

Definition set_add (u : string) (s : list string) : list string :=
  if set_has u s then s else s ++ [u].

Definition set_delete (u : string) (s : list string) : list string :=
  List.filter (fun x => negb (String.eqb x u)) s.

(** [this.rooms : Map<string, Room>], a JS [Map] in insertion order; the
    value is the room's [users] set. *)
Definition room_map := list (string * list string).

Definition map_has (k : string) (m : room_map) : bool :=
  existsb (fun e => String.eqb (fst e) k) m.

Fixpoint map_get (k : string) (m : room_map) : option (list string) :=
  match m with
  | [] => None
  | (k', v) :: m' => if String.eqb k' k then Some v else map_get k m'
  end.

(** [Map.set]: an existing key keeps its position, a new key is appended. *)
Definition map_set (k : string) (v : list string) (m : room_map) : room_map :=
  if map_has k m
  then List.map (fun e => if String.eqb (fst e) k then (fst e, v) else e) m
  else m ++ [(k, v)].

(** Members of room [k]; an absent room has none. *)
Definition members (m : room_map) (k : string) : list string :=
  match map_get k m with Some v => v | None => [] end.

Record state := mkState {
  connected : list string;          (* sockets of the namespace *)
  joined : list (string * string);  (* adapter: (socket, room) from [client.join] *)
  rooms : room_map;                 (* [this.rooms] *)
  outbox : list (string * msg)      (* delivered messages: (recipient socket, message) *)
}.

Definition init : state := mkState [] [] [] [].

(** [server.to(x)]: socket.io delivers to the sockets of the adapter's
    room [x], in the order they entered it. A socket enters the room named
    by its own id when it connects (ids are fresh random strings, so this
    comes before any [client.join] of a room of that name), then the
    sockets that [client.join(x)] enter it in join order ([joined], where a
    repeated join adds nothing). The broadcast skips an id that is not a
    socket of the namespace. *)
Definition room_order (st : state) (x : string) : list string :=
  (if set_has x (connected st) then [x] else [])
  ++ List.map fst (List.filter (fun p => String.eqb (snd p) x && negb (String.eqb (fst p) x))
                               (joined st)).

Definition recipients (st : state) (x : string) : list string :=
  List.filter (fun s => set_has s (connected st)) (room_order st x).

Definition emit_to (st : state) (x : string) (m : msg) : list (string * msg) :=
  List.map (fun s => (s, m)) (recipients st x).

(** [client.join(roomId)] *)
Definition sio_join (c r : string) (j : list (string * string)) :=
  if existsb (fun p => String.eqb (fst p) c && String.eqb (snd p) r) j
  then j else j ++ [(c, r)].

(** [handleJoinRoom] *)
Definition handleJoinRoom (st : state) (c roomId : string) : state :=
  let rooms1 := if map_has roomId (rooms st) then rooms st
                else map_set roomId [] (rooms st) in
  let users := members rooms1 roomId in
  (* notify existing users about new user *)
  let out1 := outbox st ++ flat_map (fun u => emit_to st u (UserJoined c)) users in
  (* add user to room *)
  let users' := set_add c users in
  let rooms2 := map_set roomId users' rooms1 in
  let joined' := sio_join c roomId (joined st) in
  (* send existing users to the new user *)
  let existing := List.filter (fun id => negb (String.eqb id c)) users' in
  mkState (connected st) joined' rooms2 (out1 ++ [(c, RoomUsers existing)]).

(** The body of [this.rooms.forEach] in [handleDisconnect], over the entries
    in insertion order; only the current entry is ever deleted, so the
    iteration visits exactly the entries present when it started. *)
Fixpoint disconnect_rooms (st : state) (c : string) (rs : room_map)
  : room_map * list (string * msg) :=
  match rs with
  | [] => ([], [])
  | (rid, users) :: rest =>
      let '(rest', out) := disconnect_rooms st c rest in
      if set_has c users then
        let users' := set_delete c users in
        let notes := flat_map (fun u => emit_to st u (UserLeft c)) users' in
        if Nat.eqb (length users') 0 then (rest', notes ++ out)
        else ((rid, users') :: rest', notes ++ out)
      else ((rid, users) :: rest', out)
  end.

(** [handleDisconnect] *)
Definition handleDisconnect (st : state) (c : string) : state :=
  let '(rooms', out) := disconnect_rooms st c (rooms st) in
  mkState (connected st) (joined st) rooms' (outbox st ++ out).

(** socket.io, before it calls [handleDisconnect]: the socket leaves every
    room and the namespace. *)
Definition sio_disconnect (st : state) (c : string) : state :=
  mkState (List.filter (fun s => negb (String.eqb s c)) (connected st))
          (List.filter (fun p => negb (String.eqb (fst p) c)) (joined st))
          (rooms st) (outbox st).

(** [handleOffer], [handleAnswer], [handleIceCandidate] *)
Definition handleOffer (st : state) (c to offer : string) : state :=
  mkState (connected st) (joined st) (rooms st)
          (outbox st ++ emit_to st to (OfferMsg offer c)).

Definition handleAnswer (st : state) (c to answer : string) : state :=
  mkState (connected st) (joined st) (rooms st)
          (outbox st ++ emit_to st to (AnswerMsg answer c)).

Definition handleIceCandidate (st : state) (c to cand : string) : state :=
  mkState (connected st) (joined st) (rooms st)
          (outbox st ++ emit_to st to (IceMsg cand c)).

Inductive event :=
| Connect (c : string)
| JoinRoom (c roomId : string)
| Disconnect (c : string)
| Offer (c to offer : string)
| Answer (c to answer : string)
| IceCandidate (c to cand : string).

(** [handleConnection] only logs; the socket joins the namespace. *)
Definition step (st : state) (ev : event) : state :=
  match ev with
  | Connect c => mkState (connected st ++ [c]) (joined st) (rooms st) (outbox st)
  | JoinRoom c r => handleJoinRoom st c r
  | Disconnect c => handleDisconnect (sio_disconnect st c) c
  | Offer c to o => handleOffer st c to o
  | Answer c to a => handleAnswer st c to a
  | IceCandidate c to k => handleIceCandidate st c to k
  end.

Definition run (st : state) (evs : list event) : state := fold_left step evs st.

(** What the transport can deliver: a new socket has a fresh id, and every
    other event comes from a connected socket. *)
Definition wf_event (st : state) (ev : event) : Prop :=
  match ev with
  | Connect c => ~ In c (connected st)
  | JoinRoom c _ | Disconnect c | Offer c _ _ | Answer c _ _
  | IceCandidate c _ _ => In c (connected st)
  end.

Inductive reachable : state -> Prop :=
| reach_init : reachable init
| reach_step st ev : reachable st -> wf_event st ev -> reachable (step st ev).

(** No room of the map is named by the id of a connected socket. *)
Definition room_ids_distinct (st : state) : Prop :=
  forall x, In x (List.map fst (rooms st)) -> ~ In x (connected st).

(** Reference predicate for C2: [c] issued a join for [r] that no later
    disconnect of [c] has undone. *)
Definition live_join_step (r c : string) (b : bool) (ev : event) : bool :=
  match ev with
  | JoinRoom c' r' => (String.eqb c' c && String.eqb r' r) || b
  | Disconnect c' => negb (String.eqb c' c) && b
  | _ => b
  end.

Definition live_join (evs : list event) (r c : string) : bool :=
  fold_left (live_join_step r c) evs false.

Record inv (st : state) : Prop := {
  inv_conn : NoDup (connected st);
  inv_keys : NoDup (List.map fst (rooms st));
  inv_joined : forall s x, In (s, x) (joined st) <-> In s (members (rooms st) x);
  inv_members_conn : forall s x, In s (members (rooms st) x) -> In s (connected st);
  inv_members_nodup : forall x, NoDup (members (rooms st) x)
}.

(** The connections [server.to(x)] reaches, in terms of the room map. *)
Definition addressed (st : state) (x : string) : list string :=
  List.filter (fun s => String.eqb s x || set_has s (members (rooms st) x)) (connected st).

Definition msg_eq_dec (m1 m2 : msg) : {m1 = m2} + {m1 <> m2}.
Proof. decide equality; auto using string_dec, list_eq_dec. Defined.

Definition out_eq_dec (a b : string * msg) : {a = b} + {a <> b}.
Proof. decide equality; auto using string_dec, msg_eq_dec. Defined.

(** Executable check of [wf_event], for concrete traces. *)
Definition wf_eventb (st : state) (ev : event) : bool :=
  match ev with
  | Connect c => negb (set_has c (connected st))
  | JoinRoom c _ | Disconnect c | Offer c _ _ | Answer c _ _
  | IceCandidate c _ _ => set_has c (connected st)
  end.

Fixpoint wf_traceb (st : state) (evs : list event) : bool :=
  match evs with
  | [] => true
  | ev :: evs' => wf_eventb st ev && wf_traceb (step st ev) evs'
  end.

Definition room_ids_distinctb (st : state) : bool :=
  forallb (fun x => negb (set_has x (connected st))) (List.map fst (rooms st)).

(** Messages of one join. *)
Definition joined_notes (c : string) (old : list string) : list (string * msg) :=
  List.map (fun u => (u, UserJoined c)) old ++ [(c, RoomUsers (set_delete c old))].


End Server.

(* ================================================================== *)
(** ** Client: the peer orchestrator of [VideoCall] *)
(* ================================================================== *)

Module Client.
Import stdpp.base stdpp.gmap stdpp.strings.

Inductive signaling_state := Stable | HaveLocalOffer | HaveRemoteOffer | SignalingClosed.

Inductive connection_state :=
| CsNew | CsConnecting | CsConnected | CsDisconnected | CsFailed | CsClosed.

Inductive ice_connection_state :=
| IceNew | IceChecking | IceConnected | IceCompleted | IceDisconnected | IceFailed | IceClosed.

Inductive track_kind := Audio | Video.

Definition kind_eqb (a b : track_kind) : bool :=
  match a, b with Audio, Audio | Video, Video => true | _, _ => false end.

(** A [MediaStreamTrack]; its [enabled] flag lives in the store
    [trackEnabled], since the object is shared by every sender using it. *)
Record track := mkTrack { track_id : nat; kind : track_kind }.

(** The browser's [RTCPeerConnection]. [owner] is the [userId] that the
    handlers installed by [createPeerConnection] close over. *)
Record rtc := mkRtc {
  owner : string;
  signalingState : signaling_state;
  connectionState : connection_state;
  iceConnectionState : ice_connection_state;
  localDescription : option string;
  remoteDescription : option string;
  appliedCandidates : list string;   (* [addIceCandidate], in order *)
  iceRestart : bool;                 (* set by [restartIce()] *)
  senders : list (option track)      (* [getSenders()], their [track] *)
}.

(** [interface PeerConnection] *)
Record peer := mkPeer {
  userId : string;
  connection : nat;                  (* reference to an [rtc] *)
  stream : option string;
  iceCandidates : list string;
  remoteDescriptionSet : bool
}.

(** Messages the orchestrator emits on the socket. *)
Inductive cmsg :=
| SendOffer (offer to : string)
| SendAnswer (answer to : string)
| SendIce (candidate to : string)
| SendJoinRoom (roomId : string).

(** Orchestrator state: [peersRef.current] maps a user id to a reference to
    a [PeerConnection] object; [objs] and [pcs] are the object heaps. *)
Record orch := mkOrch {
  peersRef : gmap string nat;
  objs : gmap nat peer;
  pcs : gmap nat rtc;
  next_ref : nat;
  localStreamRef : option (list track);
  trackEnabled : gmap nat bool;
  isAudioEnabled : bool;
  isVideoEnabled : bool;
  sent : list cmsg
}.

(** Field updates. *)
Definition set_peersRef s m := mkOrch m (objs s) (pcs s) (next_ref s) (localStreamRef s)
  (trackEnabled s) (isAudioEnabled s) (isVideoEnabled s) (sent s).
Definition set_objs s m := mkOrch (peersRef s) m (pcs s) (next_ref s) (localStreamRef s)
  (trackEnabled s) (isAudioEnabled s) (isVideoEnabled s) (sent s).
Definition set_pcs s m := mkOrch (peersRef s) (objs s) m (next_ref s) (localStreamRef s)
  (trackEnabled s) (isAudioEnabled s) (isVideoEnabled s) (sent s).
Definition set_next_ref s n := mkOrch (peersRef s) (objs s) (pcs s) n (localStreamRef s)
  (trackEnabled s) (isAudioEnabled s) (isVideoEnabled s) (sent s).
Definition set_localStreamRef s l := mkOrch (peersRef s) (objs s) (pcs s) (next_ref s) l
  (trackEnabled s) (isAudioEnabled s) (isVideoEnabled s) (sent s).
Definition set_trackEnabled s m := mkOrch (peersRef s) (objs s) (pcs s) (next_ref s)
  (localStreamRef s) m (isAudioEnabled s) (isVideoEnabled s) (sent s).
Definition set_isAudioEnabled s b := mkOrch (peersRef s) (objs s) (pcs s) (next_ref s)
  (localStreamRef s) (trackEnabled s) b (isVideoEnabled s) (sent s).
Definition set_isVideoEnabled s b := mkOrch (peersRef s) (objs s) (pcs s) (next_ref s)
  (localStreamRef s) (trackEnabled s) (isAudioEnabled s) b (sent s).
Definition emit s m := mkOrch (peersRef s) (objs s) (pcs s) (next_ref s)
  (localStreamRef s) (trackEnabled s) (isAudioEnabled s) (isVideoEnabled s) (sent s ++ [m]).

Definition set_signaling rc x := mkRtc (owner rc) x (connectionState rc) (iceConnectionState rc)
  (localDescription rc) (remoteDescription rc) (appliedCandidates rc) (iceRestart rc) (senders rc).
Definition set_connectionState rc x := mkRtc (owner rc) (signalingState rc) x (iceConnectionState rc)
  (localDescription rc) (remoteDescription rc) (appliedCandidates rc) (iceRestart rc) (senders rc).
Definition set_iceConnectionState rc x := mkRtc (owner rc) (signalingState rc) (connectionState rc) x
  (localDescription rc) (remoteDescription rc) (appliedCandidates rc) (iceRestart rc) (senders rc).
Definition set_senders rc x := mkRtc (owner rc) (signalingState rc) (connectionState rc)
  (iceConnectionState rc) (localDescription rc) (remoteDescription rc) (appliedCandidates rc)
  (iceRestart rc) x.

Definition set_queue p q := mkPeer (userId p) (connection p) (stream p) q (remoteDescriptionSet p).
Definition set_flag p b := mkPeer (userId p) (connection p) (stream p) (iceCandidates p) b.

Definition update_pc (s : orch) (i : nat) (f : rtc -> rtc) : orch :=
  match pcs s !! i with Some rc => set_pcs s (<[i := f rc]> (pcs s)) | None => s end.

Definition fresh (s : orch) : nat * orch := (next_ref s, set_next_ref s (S (next_ref s))).

(** *** The [RTCPeerConnection] operations the component calls *)

Definition new_rtc (userId : string) (ss : list (option track)) : rtc :=
  mkRtc userId Stable CsNew IceNew None None [] false ss.

(** [close()]: no state-change event fires. *)
Definition pc_close (rc : rtc) : rtc :=
  mkRtc (owner rc) SignalingClosed CsClosed IceClosed (localDescription rc)
    (remoteDescription rc) (appliedCandidates rc) (iceRestart rc) (senders rc).

(** [setRemoteDescription(offer)]. In [have-local-offer] the browser first
    rolls back the pending local offer (implicit rollback), then applies the
    remote offer; the local description falls back to the current one, which
    is none here, since the component only creates offers on a fresh
    connection. Rejected after [close()]. *)
Definition setRemoteOffer (rc : rtc) (o : string) : option rtc :=
  match signalingState rc with
  | Stable | HaveRemoteOffer =>
      Some (mkRtc (owner rc) HaveRemoteOffer (connectionState rc) (iceConnectionState rc)
              (localDescription rc) (Some o) (appliedCandidates rc) (iceRestart rc) (senders rc))
  | HaveLocalOffer =>
      Some (mkRtc (owner rc) HaveRemoteOffer (connectionState rc) (iceConnectionState rc)
              None (Some o) (appliedCandidates rc) (iceRestart rc) (senders rc))
  | SignalingClosed => None
  end.

(** [setRemoteDescription(answer)]: only in [have-local-offer]. *)
Definition setRemoteAnswer (rc : rtc) (a : string) : option rtc :=
  match signalingState rc with
  | HaveLocalOffer =>
      Some (mkRtc (owner rc) Stable (connectionState rc) (iceConnectionState rc)
              (localDescription rc) (Some a) (appliedCandidates rc) (iceRestart rc) (senders rc))
  | _ => None
  end.

(** [createOffer()]; after [restartIce()] the offer carries new ICE
    credentials. *)
Definition createOffer (rc : rtc) : string :=
  if iceRestart rc then "offer(ice-restart)" else "offer".

Definition createAnswer (rc : rtc) : string := "answer".

(** [setLocalDescription(offer)] *)
Definition setLocalOffer (rc : rtc) (o : string) : rtc :=
  mkRtc (owner rc) HaveLocalOffer (connectionState rc) (iceConnectionState rc)
    (Some o) (remoteDescription rc) (appliedCandidates rc) false (senders rc).

(** [setLocalDescription(answer)] *)
Definition setLocalAnswer (rc : rtc) (a : string) : rtc :=
  mkRtc (owner rc) Stable (connectionState rc) (iceConnectionState rc)
    (Some a) (remoteDescription rc) (appliedCandidates rc) (iceRestart rc) (senders rc).

(** [addIceCandidate(c)]: rejected (and the error caught) after [close()]
    or without a remote description. *)
Definition addIceCandidate (rc : rtc) (c : string) : rtc :=
  match signalingState rc, remoteDescription rc with
  | SignalingClosed, _ => rc
  | _, Some _ =>
      mkRtc (owner rc) (signalingState rc) (connectionState rc) (iceConnectionState rc)
        (localDescription rc) (remoteDescription rc) (appliedCandidates rc ++ [c])
        (iceRestart rc) (senders rc)
  | _, None => rc
  end.

(** [restartIce()]: marks the connection for an ICE restart and queues a
    [negotiationneeded] event; [createPeerConnection] installs no handler
    for that event. *)
Definition restartIce (rc : rtc) : rtc :=
  mkRtc (owner rc) (signalingState rc) (connectionState rc) (iceConnectionState rc)
    (localDescription rc) (remoteDescription rc) (appliedCandidates rc) true (senders rc).

(** [sender.replaceTrack(t)] *)
Fixpoint replace_first_sender (k : track_kind) (t : track) (ss : list (option track))
  : list (option track) :=
  match ss with
  | [] => []
  | Some t' :: ss' =>
      if kind_eqb (kind t') k then Some t :: ss' else Some t' :: replace_first_sender k t ss'
  | None :: ss' => None :: replace_first_sender k t ss'
  end.

Definition replaceTrack_kind (k : track_kind) (t : track) (rc : rtc) : rtc :=
  set_senders rc (replace_first_sender k t (senders rc)).

(** *** The component's functions *)

Definition track_enabled (s : orch) (t : track) : bool :=
  default true (trackEnabled s !! track_id t).

(** The senders [addTrack] creates for the enabled local tracks. *)
Definition local_senders (s : orch) : list (option track) :=
  match localStreamRef s with
  | Some tracks => List.map Some (List.filter (track_enabled s) tracks)
  | None => []
  end.

(** [createPeerConnection(userId)]: closes an existing connection for
    [userId], creates a new one with the enabled local tracks, and stores a
    fresh [PeerConnection] object in [peersRef]; returns the connection. *)
Definition createPeerConnection (s : orch) (uid : string) : orch * nat :=
  let s1 := match peersRef s !! uid with
            | Some pr => match objs s !! pr with
                         | Some p => update_pc s (connection p) pc_close
                         | None => s
                         end
            | None => s
            end in
  let '(pcr, s2) := fresh s1 in
  let s3 := set_pcs s2 (<[pcr := new_rtc uid (local_senders s2)]> (pcs s2)) in
  let '(pr, s4) := fresh s3 in
  let s5 := set_objs s4 (<[pr := mkPeer uid pcr None [] false]> (objs s4)) in
  (set_peersRef s5 (<[uid := pr]> (peersRef s5)), pcr).

(** [addBufferedIceCandidates(peer)] *)
Definition addBufferedIceCandidates (s : orch) (pr : nat) : orch :=
  match objs s !! pr with
  | Some p =>
      if negb (Nat.eqb (length (iceCandidates p)) 0) && remoteDescriptionSet p then
        let s1 := update_pc s (connection p)
                    (fun rc => fold_left addIceCandidate (iceCandidates p) rc) in
        set_objs s1 (<[pr := set_queue p []]> (objs s1))
      else s
  | None => s
  end.

(** [handleRoomUsers]: the body of the loop for one [userId]. *)
Definition offerTo (s : orch) (uid : string) : orch :=
  match peersRef s !! uid with
  | Some _ => s
  | None =>
      let '(s1, pcr) := createPeerConnection s uid in
      match pcs s1 !! pcr with
      | Some rc =>
          let offer := createOffer rc in
          emit (update_pc s1 pcr (fun rc => setLocalOffer rc offer)) (SendOffer offer uid)
      | None => s1
      end
  end.

Definition handleRoomUsers (s : orch) (users : list string) : orch :=
  fold_left offerTo users s.

(** [handleUserJoined] *)
Definition handleUserJoined (s : orch) (uid : string) : orch :=
  match peersRef s !! uid with
  | Some _ => s
  | None => fst (createPeerConnection s uid)
  end.

(** [handleOffer]. When no [PeerConnection] exists for [from], the code
    calls [createPeerConnection(from)], which stores one object in
    [peersRef], and then works on a second object literal, which it does not
    store. *)
Definition handleOffer (s : orch) (offer from : string) : orch :=
  let '(s1, pr) :=
    match peersRef s !! from with
    | Some pr => (s, pr)
    | None =>
        let '(s1, pcr) := createPeerConnection s from in
        let '(pr, s2) := fresh s1 in
        (set_objs s2 (<[pr := mkPeer from pcr None [] false]> (objs s2)), pr)
    end in
  match objs s1 !! pr with
  | Some p =>
      match pcs s1 !! connection p with
      | Some rc =>
          match setRemoteOffer rc offer with
          | Some rc1 =>
              let s2 := set_pcs s1 (<[connection p := rc1]> (pcs s1)) in
              let s3 := set_objs s2 (<[pr := set_flag p true]> (objs s2)) in
              let s4 := addBufferedIceCandidates s3 pr in
              match pcs s4 !! connection p with
              | Some rc4 =>
                  let answer := createAnswer rc4 in
                  emit (update_pc s4 (connection p) (fun rc => setLocalAnswer rc answer))
                       (SendAnswer answer from)
              | None => s4
              end
          | None => s1   (* error handling offer *)
          end
      | None => s1
      end
  | None => s1
  end.

(** [handleAnswer] *)
Definition handleAnswer (s : orch) (answer from : string) : orch :=
  match peersRef s !! from with
  | Some pr =>
      match objs s !! pr with
      | Some p =>
          match pcs s !! connection p with
          | Some rc =>
              match setRemoteAnswer rc answer with
              | Some rc1 =>
                  let s1 := set_pcs s (<[connection p := rc1]> (pcs s)) in
                  let s2 := set_objs s1 (<[pr := set_flag p true]> (objs s1)) in
                  addBufferedIceCandidates s2 pr
              | None => s   (* error handling answer *)
              end
          | None => s
          end
      | None => s
      end
  | None => s
  end.

(** [handleIceCandidate] *)
Definition handleIceCandidate (s : orch) (candidate from : string) : orch :=
  match peersRef s !! from with
  | Some pr =>
      match objs s !! pr with
      | Some p =>
          if negb (remoteDescriptionSet p)
          then set_objs s (<[pr := set_queue p (iceCandidates p ++ [candidate])]> (objs s))
          else update_pc s (connection p) (fun rc => addIceCandidate rc candidate)
      | None => s
      end
  | None => s
  end.

(** [handleUserLeft] *)
Definition handleUserLeft (s : orch) (uid : string) : orch :=
  match peersRef s !! uid with
  | Some pr =>
      match objs s !! pr with
      | Some p =>
          let s1 := update_pc s (connection p) pc_close in
          set_peersRef s1 (delete uid (peersRef s1))
      | None => s
      end
  | None => s
  end.

Definition sig_stable (x : signaling_state) : bool :=
  match x with Stable => true | _ => false end.

(** [peerConnection.onconnectionstatechange], installed on connection [pcr]
    for its [owner]. *)
Definition onconnectionstatechange (s : orch) (pcr : nat) : orch :=
  match pcs s !! pcr with
  | Some rc =>
      let uid := owner rc in
      match connectionState rc with
      | CsFailed | CsDisconnected =>
          (* attempt ICE restart *)
          match peersRef s !! uid with
          | Some pr =>
              match objs s !! pr with
              | Some p =>
                  match pcs s !! connection p with
                  | Some prc =>
                      if sig_stable (signalingState prc)
                      then update_pc s (connection p) restartIce else s
                  | None => s
                  end
              | None => s
              end
          | None => s
          end
      | CsClosed => set_peersRef s (delete uid (peersRef s))
      | _ => s
      end
  | None => s
  end.

(** [peerConnection.oniceconnectionstatechange] *)
Definition oniceconnectionstatechange (s : orch) (pcr : nat) : orch :=
  match pcs s !! pcr with
  | Some rc =>
      match iceConnectionState rc with
      | IceFailed => update_pc s pcr restartIce
      | _ => s
      end
  | None => s
  end.

(** The browser changes the connection state of [pcr], then fires
    [connectionstatechange]. *)
Definition connection_state_change (s : orch) (pcr : nat) (x : connection_state) : orch :=
  onconnectionstatechange (update_pc s pcr (fun rc => set_connectionState rc x)) pcr.

(** [peersRef.current.forEach]: [replaceTrack] on the first sender of kind
    [k] of each peer's connection. *)
Definition replace_in_peers (s : orch) (k : track_kind) (t : track) : orch :=
  fold_left (fun s e => match objs s !! e.2 with
                        | Some p => update_pc s (connection p) (replaceTrack_kind k t)
                        | None => s
                        end)
            (map_to_list (peersRef s)) s.

Definition first_track (k : track_kind) (tracks : list track) : option track :=
  List.find (fun t => kind_eqb (kind t) k) tracks.

(** [toggleAudio] *)
Definition toggleAudio (s : orch) : orch :=
  match localStreamRef s with
  | Some tracks =>
      match first_track Audio tracks with
      | Some t =>
          let en := negb (track_enabled s t) in
          let s1 := set_trackEnabled s (<[track_id t := en]> (trackEnabled s)) in
          replace_in_peers (set_isAudioEnabled s1 en) Audio t
      | None => s
      end
  | None => s
  end.

(** [toggleVideo] *)
Definition toggleVideo (s : orch) : orch :=
  match localStreamRef s with
  | Some tracks =>
      match first_track Video tracks with
      | Some t =>
          let en := negb (track_enabled s t) in
          let s1 := set_trackEnabled s (<[track_id t := en]> (trackEnabled s)) in
          replace_in_peers (set_isVideoEnabled s1 en) Video t
      | None => s
      end
  | None => s
  end.

(** A client that holds its camera and microphone stream. *)
Definition cam_tracks : list track := [mkTrack 1 Audio; mkTrack 2 Video].

Definition orch_init : orch :=
  mkOrch ∅ ∅ ∅ 0 (Some cam_tracks) ∅ true true [].

(** *** The socket effect, [cleanup] and the ['connect'] handler *)

(** A socket.io-client [Socket]. [captured_hasJoinedRoom] is the value of
    [hasJoinedRoom] in the render whose socket effect created the socket:
    the value its ['connect'] and ['reconnect'] handlers close over. *)
Record sock := mkSock {
  captured_hasJoinedRoom : bool;
  sock_connected : bool;
  sock_active : bool              (* false after [disconnect()] *)
}.

(** The component: React state, refs, socket instances, and the
    dependencies each effect last ran with. *)
Record comp := mkComp {
  o : orch;
  socket : option nat;
  isConnected : bool;
  hasJoinedRoom : bool;
  socketRef : option nat;
  sockets : list sock;
  socket_effect_deps : option bool;
  join_effect_deps : option (option nat * bool * bool);
  emitted : list (nat * cmsg)     (* (socket instance, message) *)
}.

Definition comp_init : comp :=
  mkComp (set_localStreamRef orch_init None) None false false None [] None None [].

Definition sock_disconnect (k : nat) (ss : list sock) : list sock :=
  match ss !! k with
  | Some sk => <[k := mkSock (captured_hasJoinedRoom sk) false false]> ss
  | None => ss
  end.

(** Closing every [PeerConnection] and clearing [peersRef]. *)
Definition close_all_peers (s : orch) : orch :=
  let s1 := fold_left (fun s e => match objs s !! e.2 with
                                  | Some p => update_pc s (connection p) pc_close
                                  | None => s
                                  end)
                      (map_to_list (peersRef s)) s in
  set_peersRef s1 ∅.

Section Component.

(** The [roomId] prop. *)
Variable roomId : string.

(** [cleanup]: closes the peers, stops the local tracks
    ([localStreamRef.current = null]), disconnects the socket (whose
    ['disconnect'] handler only sets [isConnected] to false for a
    client-side disconnect), and sets [hasJoinedRoom] and [isConnected] to
    false. *)
Definition cleanup (c : comp) : comp :=
  let o1 := set_localStreamRef (close_all_peers (o c)) None in
  let ss := match socketRef c with
            | Some k => sock_disconnect k (sockets c)
            | None => sockets c
            end in
  mkComp o1 (socket c) false false None ss
         (socket_effect_deps c) (join_effect_deps c) (emitted c).

(** [initSocket], in the effect run of a render where [hasJoinedRoom] is
    [joined0]. *)
Definition initSocket (c : comp) (joined0 : bool) : comp :=
  let create :=
    let k := length (sockets c) in
    mkComp (o c) (Some k) (isConnected c) (hasJoinedRoom c) (Some k)
           (sockets c ++ [mkSock joined0 false true])
           (socket_effect_deps c) (join_effect_deps c) (emitted c) in
  match socketRef c with
  | Some k =>
      match sockets c !! k with
      | Some sk => if sock_connected sk then c else create
      | None => create
      end
  | None => create
  end.

(** The join effect, with the render's [socket], [isConnected] and
    [hasJoinedRoom]. *)
Definition join_effect (c : comp) (sock0 : option nat) (conn0 joined0 : bool) : comp :=
  match sock0 with
  | Some k =>
      if bool_decide (is_Some (localStreamRef (o c))) && conn0 && negb joined0
      then mkComp (o c) (socket c) (isConnected c) true (socketRef c) (sockets c)
                  (socket_effect_deps c) (join_effect_deps c)
                  (emitted c ++ [(k, SendJoinRoom roomId)])
      else c
  | None => c
  end.

Definition set_deps (c : comp) (d1 : option bool) (d4 : option (option nat * bool * bool)) :=
  mkComp (o c) (socket c) (isConnected c) (hasJoinedRoom c) (socketRef c) (sockets c)
         d1 d4 (emitted c).

Definition deps_eqb (a b : option nat * bool * bool) : bool :=
  bool_decide (a = b).

(** A React commit after a render: each effect whose dependencies changed
    runs its previous cleanup and then its body, with the render's state
    values. The socket effect depends on [hasJoinedRoom] ([roomId] and
    [cleanup] never change); the join effect on [socket], [isConnected] and
    [hasJoinedRoom]. *)
Definition commit (c : comp) : comp :=
  let sock0 := socket c in
  let conn0 := isConnected c in
  let joined0 := hasJoinedRoom c in
  let run1 := match socket_effect_deps c with
              | Some b => negb (Bool.eqb b joined0)
              | None => true
              end in
  let run4 := match join_effect_deps c with
              | Some d => negb (deps_eqb d (sock0, conn0, joined0))
              | None => true
              end in
  let c1 := if run1 then match socket_effect_deps c with
                         | Some _ => cleanup c
                         | None => c
                         end
            else c in
  let c2 := if run1 then set_deps (initSocket c1 joined0) (Some joined0) (join_effect_deps c1)
            else c1 in
  if run4 then set_deps (join_effect c2 sock0 conn0 joined0) (socket_effect_deps c2)
                        (Some (sock0, conn0, joined0))
  else c2.

(** The socket [k] connects and fires ['connect']: rejoin the room if the
    captured [hasJoinedRoom] and [localStreamRef.current] say so. *)
Definition socket_connect (c : comp) (k : nat) : comp :=
  match sockets c !! k with
  | Some sk =>
      if sock_active sk then
        let c1 := mkComp (o c) (socket c) true (hasJoinedRoom c) (socketRef c)
                    (<[k := mkSock (captured_hasJoinedRoom sk) true true]> (sockets c))
                    (socket_effect_deps c) (join_effect_deps c) (emitted c) in
        if captured_hasJoinedRoom sk && bool_decide (is_Some (localStreamRef (o c)))
        then mkComp (o c1) (socket c1) (isConnected c1) (hasJoinedRoom c1) (socketRef c1)
                    (sockets c1) (socket_effect_deps c1) (join_effect_deps c1)
                    (emitted c1 ++ [(k, SendJoinRoom roomId)])
        else c1
      else c
  | None => c
  end.

(** [getUserMedia] resolves: [localStreamRef.current = stream]. *)
Definition media_ready (c : comp) (tracks : list track) : comp :=
  mkComp (set_localStreamRef (o c) (Some tracks)) (socket c) (isConnected c)
         (hasJoinedRoom c) (socketRef c) (sockets c) (socket_effect_deps c)
         (join_effect_deps c) (emitted c).

Inductive cevent := Commit | MediaReady (tracks : list track) | SocketConnect (k : nat).

Definition cstep (c : comp) (ev : cevent) : comp :=
  match ev with
  | Commit => commit c
  | MediaReady ts => media_ready c ts
  | SocketConnect k => socket_connect c k
  end.

Definition crun (c : comp) (evs : list cevent) : comp := fold_left cstep evs c.

End Component.

End Client.

(* ================================================================== *)
(** ** Server: facts and claims *)
(* ================================================================== *)

Module ServerFacts.
Import Server.

(** ** Lemmas on the JS [Set] and [Map] models *)

Lemma set_has_In u s : set_has u s = true <-> In u s.
Proof.
  unfold set_has. rewrite existsb_exists. split.
  - intros (x & Hx & E). apply String.eqb_eq in E. subst. exact Hx.
  - intros H. exists u. split; [exact H | apply String.eqb_refl].
Qed.

Lemma set_has_false u s : set_has u s = false <-> ~ In u s.
Proof.
  rewrite <- set_has_In. destruct (set_has u s); split; congruence.
Qed.

Lemma In_set_add x u s : In x (set_add u s) <-> x = u \/ In x s.
Proof.
  unfold set_add. destruct (set_has u s) eqn:E.
  - apply set_has_In in E. split; [auto | intros [->|H]; auto].
  - rewrite in_app_iff. simpl. intuition.
Qed.

Lemma In_set_delete x u s : In x (set_delete u s) <-> In x s /\ x <> u.
Proof.
  unfold set_delete. rewrite List.filter_In, negb_true_iff, String.eqb_neq.
  reflexivity.
Qed.

Lemma NoDup_set_add u s : NoDup s -> NoDup (set_add u s).
Proof.
  unfold set_add. destruct (set_has u s) eqn:E; intros H; [exact H|].
  apply set_has_false in E.
  rewrite <- (rev_involutive (s ++ [u])). apply NoDup_rev.
  rewrite rev_app_distr. simpl. constructor.
  - rewrite <- in_rev. exact E.
  - apply NoDup_rev. exact H.
Qed.

Lemma NoDup_set_delete u s : NoDup s -> NoDup (set_delete u s).
Proof. apply NoDup_filter. Qed.

Lemma set_delete_absent u s : ~ In u s -> set_delete u s = s.
Proof.
  induction s as [|x s IH]; simpl; intros H; [reflexivity|].
  destruct (String.eqb_spec x u) as [->|Hne]; [exfalso; auto|].
  simpl. f_equal. auto.
Qed.

Lemma set_delete_add u s : set_delete u (set_add u s) = set_delete u s.
Proof.
  unfold set_add. destruct (set_has u s); [reflexivity|].
  unfold set_delete. rewrite List.filter_app. simpl.
  rewrite String.eqb_refl. simpl. apply app_nil_r.
Qed.

Lemma map_has_In k m : map_has k m = true <-> In k (List.map fst m).
Proof.
  unfold map_has. rewrite existsb_exists, in_map_iff. split.
  - intros (e & He & E). apply String.eqb_eq in E. eauto.
  - intros (e & <- & He). exists e. split; [exact He | apply String.eqb_refl].
Qed.

Lemma map_has_false k m : map_has k m = false <-> ~ In k (List.map fst m).
Proof.
  rewrite <- map_has_In. destruct (map_has k m); split; congruence.
Qed.

Lemma map_get_app r m1 m2 :
  map_get r (m1 ++ m2) =
  match map_get r m1 with Some v => Some v | None => map_get r m2 end.
Proof.
  induction m1 as [|[k v] m1 IH]; simpl; [reflexivity|].
  destruct (String.eqb k r); auto.
Qed.

Lemma map_get_absent r m : ~ In r (List.map fst m) -> map_get r m = None.
Proof.
  induction m as [|[k v] m IH]; simpl; intros H; [reflexivity|].
  destruct (String.eqb_spec k r); [exfalso; auto|]. auto.
Qed.

Lemma map_get_replace k v r m :
  map_get r (List.map (fun e => if String.eqb (fst e) k then (fst e, v) else e) m) =
  if String.eqb k r then (if map_has k m then Some v else None)
  else map_get r m.
Proof.
  induction m as [|[k' v'] m IH]; simpl.
  - destruct (String.eqb k r); reflexivity.
  - unfold map_has in *. simpl.
    destruct (String.eqb_spec k' k) as [->|Hk]; simpl.
    + destruct (String.eqb_spec k r) as [->|Hr]; [reflexivity|].
      rewrite IH. reflexivity.
    + rewrite IH. destruct (String.eqb_spec k' r) as [->|Hr].
      * destruct (String.eqb_spec k r); [congruence|]. reflexivity.
      * reflexivity.
Qed.

Lemma map_get_set k v m r :
  map_get r (map_set k v m) = if String.eqb k r then Some v else map_get r m.
Proof.
  unfold map_set. destruct (map_has k m) eqn:Hh.
  - rewrite map_get_replace, Hh. reflexivity.
  - rewrite map_get_app. apply map_has_false in Hh.
    destruct (String.eqb_spec k r) as [->|Hne].
    + rewrite map_get_absent by exact Hh. simpl. rewrite String.eqb_refl. reflexivity.
    + destruct (map_get r m); [reflexivity|]. simpl.
      apply String.eqb_neq in Hne. rewrite Hne. reflexivity.
Qed.

Lemma keys_map_set k v m :
  List.map fst (map_set k v m) =
  if map_has k m then List.map fst m else List.map fst m ++ [k].
Proof.
  unfold map_set. destruct (map_has k m).
  - rewrite map_map. apply map_ext. intros [k' v']. simpl.
    destruct (String.eqb k' k); reflexivity.
  - rewrite map_app. reflexivity.
Qed.

Lemma NoDup_keys_map_set k v m :
  NoDup (List.map fst m) -> NoDup (List.map fst (map_set k v m)).
Proof.
  intros H. rewrite keys_map_set. destruct (map_has k m) eqn:Hh; [exact H|].
  apply map_has_false in Hh.
  rewrite <- (rev_involutive (List.map fst m ++ [k])). apply NoDup_rev.
  rewrite rev_app_distr. simpl. constructor.
  - rewrite <- in_rev. exact Hh.
  - apply NoDup_rev. exact H.
Qed.

Lemma In_map_set k v m k' v' :
  In (k', v') (map_set k v m) -> (k' = k /\ v' = v) \/ (k' <> k /\ In (k', v') m).
Proof.
  unfold map_set. destruct (map_has k m) eqn:Hh.
  - rewrite in_map_iff. intros ([k0 v0] & E & Hin). simpl in E.
    destruct (String.eqb_spec k0 k) as [->|Hne]; injection E as <- <-; auto.
  - rewrite in_app_iff. simpl. intros [Hin|[E|[]]].
    + right. split; [|exact Hin]. intros ->. apply map_has_false in Hh.
      apply Hh. apply in_map_iff. exists (k, v'). auto.
    + injection E as <- <-. auto.
Qed.

Lemma members_absent k m : ~ In k (List.map fst m) -> members m k = [].
Proof. intros H. unfold members. rewrite map_get_absent by exact H. reflexivity. Qed.

Lemma members_key k m s : In s (members m k) -> In k (List.map fst m).
Proof.
  unfold members. induction m as [|[k' v] m IH]; simpl; [tauto|].
  destruct (String.eqb_spec k' k); auto.
Qed.

Lemma in_rooms_members k v m :
  NoDup (List.map fst m) -> In (k, v) m -> members m k = v.
Proof.
  unfold members. induction m as [|[k' v'] m IH]; simpl; [tauto|].
  inversion 1 as [|? ? Hnot Hnd]; subst. intros [E|Hin].
  - injection E as -> ->. rewrite String.eqb_refl. reflexivity.
  - destruct (String.eqb_spec k' k) as [->|]; [|auto].
    exfalso. apply Hnot. apply in_map_iff. exists (k, v). auto.
Qed.

(** ** The [forEach] of [handleDisconnect] *)

Lemma disconnect_rooms_keys st c rs :
  NoDup (List.map fst rs) ->
  NoDup (List.map fst (fst (disconnect_rooms st c rs))) /\
  incl (List.map fst (fst (disconnect_rooms st c rs))) (List.map fst rs).
Proof.
  induction rs as [|[rid users] rest IH]; simpl; intros Hnd.
  - split; [constructor | apply incl_refl].
  - inversion Hnd as [|? ? Hnot Hnd']; subst.
    destruct (IH Hnd') as [Hk Hi].
    destruct (disconnect_rooms st c rest) as [rest' out]. simpl in *.
    assert (Hnot' : ~ In rid (List.map fst rest')) by (intros H; apply Hnot, Hi, H).
    destruct (set_has c users);
      [destruct (Nat.eqb (length (set_delete c users)) 0)|]; simpl.
    + split; [exact Hk|]. intros x Hx. right. auto.
    + split; [constructor; assumption|]. intros x [<-|Hx]; [left|right; auto]; reflexivity.
    + split; [constructor; assumption|]. intros x [<-|Hx]; [left|right; auto]; reflexivity.
Qed.

Lemma disconnect_rooms_members st c rs r :
  NoDup (List.map fst rs) ->
  members (fst (disconnect_rooms st c rs)) r = set_delete c (members rs r).
Proof.
  induction rs as [|[rid users] rest IH]; simpl; intros Hnd.
  - reflexivity.
  - inversion Hnd as [|? ? Hnot Hnd']; subst.
    pose proof (disconnect_rooms_keys st c rest Hnd') as [_ Hi].
    specialize (IH Hnd').
    destruct (disconnect_rooms st c rest) as [rest' out]. simpl in *.
    unfold members in *. simpl.
    destruct (String.eqb_spec rid r) as [->|Hne].
    + destruct (set_has c users) eqn:Hc.
      * destruct (Nat.eqb_spec (length (set_delete c users)) 0) as [H0|H0]; simpl.
        -- rewrite map_get_absent by (intros H; apply Hnot, Hi, H).
           destruct (set_delete c users); [reflexivity|discriminate].
        -- rewrite String.eqb_refl. reflexivity.
      * simpl. rewrite String.eqb_refl. symmetry. apply set_delete_absent.
        apply set_has_false. exact Hc.
    + apply String.eqb_neq in Hne.
      destruct (set_has c users);
        [destruct (Nat.eqb (length (set_delete c users)) 0)|]; simpl;
        try rewrite Hne; exact IH.
Qed.

Lemma disconnect_rooms_nonempty st c rs :
  (forall k v, In (k, v) rs -> v <> []) ->
  forall k v, In (k, v) (fst (disconnect_rooms st c rs)) -> v <> [].
Proof.
  induction rs as [|[rid users] rest IH]; simpl; intros Hne; [tauto|].
  assert (IH' := IH (fun k v H => Hne k v (or_intror H))).
  destruct (disconnect_rooms st c rest) as [rest' out]. simpl in *.
  destruct (set_has c users);
    [destruct (Nat.eqb_spec (length (set_delete c users)) 0) as [H0|H0]|]; simpl.
  - exact IH'.
  - intros k v [E|Hin]; [|exact (IH' k v Hin)].
    injection E as <- <-. intros E. rewrite E in H0. apply H0. reflexivity.
  - intros k v [E|Hin]; [|exact (IH' k v Hin)].
    injection E as <- <-. exact (Hne rid users (or_introl eq_refl)).
Qed.


(** ** Room membership after each step *)

Lemma join_members st c r x :
  members (rooms (handleJoinRoom st c r)) x =
  if String.eqb r x then set_add c (members (rooms st) r) else members (rooms st) x.
Proof.
  unfold handleJoinRoom. simpl. unfold members at 1. rewrite map_get_set.
  destruct (String.eqb_spec r x) as [->|Hne].
  - f_equal. destruct (map_has x (rooms st)) eqn:Hh; [reflexivity|].
    unfold members. rewrite map_get_set, String.eqb_refl.
    apply map_has_false in Hh. rewrite map_get_absent by exact Hh. reflexivity.
  - destruct (map_has r (rooms st)); [reflexivity|].
    rewrite map_get_set. apply String.eqb_neq in Hne. rewrite Hne. reflexivity.
Qed.

Lemma join_keys_nodup st c r :
  NoDup (List.map fst (rooms st)) -> NoDup (List.map fst (rooms (handleJoinRoom st c r))).
Proof.
  intros H. unfold handleJoinRoom. simpl. apply NoDup_keys_map_set.
  destruct (map_has r (rooms st)); [exact H|]. apply NoDup_keys_map_set. exact H.
Qed.

Lemma handleDisconnect_rooms st c :
  rooms (handleDisconnect st c) = fst (disconnect_rooms st c (rooms st)).
Proof.
  unfold handleDisconnect. destruct (disconnect_rooms st c (rooms st)). reflexivity.
Qed.

Lemma handleDisconnect_connected st c :
  connected (handleDisconnect st c) = connected st.
Proof.
  unfold handleDisconnect. destruct (disconnect_rooms st c (rooms st)). reflexivity.
Qed.

Lemma handleDisconnect_joined st c :
  joined (handleDisconnect st c) = joined st.
Proof.
  unfold handleDisconnect. destruct (disconnect_rooms st c (rooms st)). reflexivity.
Qed.


Lemma step_keys_nodup st ev :
  NoDup (List.map fst (rooms st)) -> NoDup (List.map fst (rooms (step st ev))).
Proof.
  intros H. destruct ev; simpl; try exact H.
  - apply join_keys_nodup. exact H.
  - rewrite handleDisconnect_rooms. simpl. apply disconnect_rooms_keys. exact H.
Qed.

Lemma step_members st ev x :
  NoDup (List.map fst (rooms st)) ->
  members (rooms (step st ev)) x =
  match ev with
  | JoinRoom c r => if String.eqb r x then set_add c (members (rooms st) r)
                    else members (rooms st) x
  | Disconnect c => set_delete c (members (rooms st) x)
  | _ => members (rooms st) x
  end.
Proof.
  intros H. destruct ev; simpl; try reflexivity.
  - apply join_members.
  - rewrite handleDisconnect_rooms. simpl. apply disconnect_rooms_members. exact H.
Qed.

Lemma run_keys_nodup st evs :
  NoDup (List.map fst (rooms st)) -> NoDup (List.map fst (rooms (run st evs))).
Proof.
  revert st. induction evs as [|ev evs IH]; simpl; intros st H; [exact H|].
  apply IH. apply step_keys_nodup. exact H.
Qed.

Lemma step_nonempty st ev :
  (forall k v, In (k, v) (rooms st) -> v <> []) ->
  forall k v, In (k, v) (rooms (step st ev)) -> v <> [].
Proof.
  intros Hne. destruct ev as [c|c r|c|c to p|c to p|c to p]; simpl; try exact Hne.
  - unfold handleJoinRoom. simpl. intros k v Hin.
    apply In_map_set in Hin as [[-> ->]|[Hk Hin]].
    + intros E. assert (Hc : In c (set_add c (members
        (if map_has r (rooms st) then rooms st else map_set r [] (rooms st)) r)))
        by (apply In_set_add; left; reflexivity).
      rewrite E in Hc. exact Hc.
    + destruct (map_has r (rooms st)); [exact (Hne k v Hin)|].
      apply In_map_set in Hin as [[? _]|[_ Hin]]; [congruence|exact (Hne k v Hin)].
  - rewrite handleDisconnect_rooms. simpl. apply disconnect_rooms_nonempty. exact Hne.
Qed.

Lemma step_member_bool st ev r c :
  NoDup (List.map fst (rooms st)) ->
  set_has c (members (rooms (step st ev)) r) =
  live_join_step r c (set_has c (members (rooms st) r)) ev.
Proof.
  intros H. rewrite step_members by exact H.
  destruct ev as [c'|c' r'|c'|c' to p|c' to p|c' to p]; simpl; try reflexivity.
  - destruct (String.eqb_spec r' r) as [->|Hne]; simpl.
    + rewrite andb_true_r. apply Bool.eq_iff_eq_true.
      rewrite orb_true_iff, !set_has_In, In_set_add, String.eqb_eq.
      split; intros [E|E]; auto.
    + rewrite andb_false_r. reflexivity.
  - apply Bool.eq_iff_eq_true.
    rewrite andb_true_iff, !set_has_In, In_set_delete, negb_true_iff, String.eqb_neq.
    split; intros [A B]; auto.
Qed.

Lemma run_member_bool st evs r c :
  NoDup (List.map fst (rooms st)) ->
  set_has c (members (rooms (run st evs)) r) =
  fold_left (live_join_step r c) evs (set_has c (members (rooms st) r)).
Proof.
  revert st. induction evs as [|ev evs IH]; simpl; intros st H; [reflexivity|].
  rewrite IH by (apply step_keys_nodup; exact H).
  rewrite step_member_bool by exact H. reflexivity.
Qed.

(** ** Invariant of reachable states *)

Lemma NoDup_snoc {A} (l : list A) (a : A) : ~ In a l -> NoDup l -> NoDup (l ++ [a]).
Proof.
  intros Hn Hl. rewrite <- (rev_involutive (l ++ [a])). apply NoDup_rev.
  rewrite rev_app_distr. simpl. constructor.
  - rewrite <- in_rev. exact Hn.
  - apply NoDup_rev. exact Hl.
Qed.

Lemma In_sio_join p c r j : In p (sio_join c r j) <-> p = (c, r) \/ In p j.
Proof.
  unfold sio_join. destruct (existsb _ j) eqn:E.
  - apply existsb_exists in E as ([a b] & Hin & E). simpl in E.
    apply andb_true_iff in E as [E1 E2].
    apply String.eqb_eq in E1. apply String.eqb_eq in E2. subst.
    split; [auto | intros [->|H]; auto].
  - rewrite in_app_iff. simpl. intuition.
Qed.

Lemma inv_init : inv init.
Proof.
  split; simpl; try constructor; unfold members; simpl; try tauto.
Qed.

Lemma inv_step st ev : inv st -> wf_event st ev -> inv (step st ev).
Proof.
  intros [Hc Hk Hj Hm Hu] Hwf.
  destruct ev as [c|c r|c|c to p|c to p|c to p]; simpl in Hwf; cbn [step].
  - (* Connect *)
    split; simpl; auto.
    + apply NoDup_snoc; assumption.
    + intros s x H. apply in_or_app. left. eauto.
  - (* JoinRoom *)
    split.
    + exact Hc.
    + apply join_keys_nodup. exact Hk.
    + intros s x.
      change (joined (handleJoinRoom st c r)) with (sio_join c r (joined st)).
      rewrite In_sio_join, join_members.
      destruct (String.eqb_spec r x) as [->|Hne].
      * rewrite In_set_add, Hj. split; intros [E|E]; auto.
        -- left. congruence.
        -- left. congruence.
      * rewrite Hj. split; [intros [E|E]; [congruence|exact E] | auto].
    + intros s x. rewrite join_members.
      destruct (String.eqb r x); [|apply Hm].
      rewrite In_set_add. intros [->|E]; [exact Hwf | exact (Hm _ _ E)].
    + intros x. rewrite join_members.
      destruct (String.eqb r x); [apply NoDup_set_add|]; apply Hu.
  - (* Disconnect *)
    split; rewrite ?handleDisconnect_rooms, ?handleDisconnect_connected,
      ?handleDisconnect_joined; simpl.
    + apply NoDup_filter. exact Hc.
    + apply disconnect_rooms_keys. exact Hk.
    + intros s x. rewrite disconnect_rooms_members by exact Hk.
      rewrite List.filter_In, In_set_delete, Hj. simpl.
      rewrite negb_true_iff, String.eqb_neq. reflexivity.
    + intros s x. rewrite disconnect_rooms_members by exact Hk.
      rewrite In_set_delete, List.filter_In, negb_true_iff, String.eqb_neq.
      intros [H Hne]. split; [exact (Hm _ _ H) | exact Hne].
    + intros x. rewrite disconnect_rooms_members by exact Hk.
      apply NoDup_set_delete. apply Hu.
  - split; assumption.
  - split; assumption.
  - split; assumption.
Qed.

Lemma reachable_inv st : reachable st -> inv st.
Proof.
  induction 1; [exact inv_init | apply inv_step; assumption].
Qed.

(** ** Addressing of [server.to(x)] *)

Lemma filter_joined_In j x a b :
  In (a, b) (List.filter (fun p => String.eqb (snd p) x && negb (String.eqb (fst p) x)) j) <->
  In (a, b) j /\ b = x /\ a <> x.
Proof.
  rewrite filter_In. simpl. rewrite andb_true_iff, String.eqb_eq, negb_true_iff, String.eqb_neq.
  tauto.
Qed.

Lemma In_recipients st x s :
  In s (recipients st x) <-> In s (connected st) /\ (s = x \/ In (s, x) (joined st)).
Proof.
  unfold recipients, room_order. rewrite filter_In, set_has_In, in_app_iff, in_map_iff.
  split.
  - intros [[H|H] Hc]; split; auto.
    + left. destruct (set_has x (connected st)); [destruct H as [<-|[]]; reflexivity|destruct H].
    + right. destruct H as ([a b] & E & H). apply filter_joined_In in H as (H & -> & _).
      simpl in E. subst a. exact H.
  - intros [Hc [->|H]]; split; auto.
    + left. rewrite (proj2 (set_has_In x _) Hc). left. reflexivity.
    + destruct (String.eqb_spec s x) as [->|Hne].
      * left. rewrite (proj2 (set_has_In x _) Hc). left. reflexivity.
      * right. exists (s, x). split; [reflexivity|]. apply filter_joined_In. auto.
Qed.

Lemma filter_eqb_none (l : list string) u :
  ~ In u l -> List.filter (fun s => String.eqb s u) l = [].
Proof.
  induction l as [|b l IH]; simpl; intros Hn; [reflexivity|].
  destruct (String.eqb_spec b u) as [->|]; [exfalso; apply Hn; left; reflexivity|].
  apply IH. intros Hb. apply Hn. right. exact Hb.
Qed.

Lemma filter_eqb_single (l : list string) u :
  NoDup l -> In u l -> List.filter (fun s => String.eqb s u) l = [u].
Proof.
  induction l as [|a l IH]; simpl; [tauto|].
  inversion 1 as [|? ? Hnot Hnd]; subst. intros [->|Hin].
  - rewrite String.eqb_refl. f_equal. apply filter_eqb_none. exact Hnot.
  - destruct (String.eqb_spec a u) as [->|]; [contradiction|]. auto.
Qed.

Lemma filter_joined_none (j : list (string * string)) u :
  (forall s, ~ In (s, u) j) ->
  List.filter (fun p => String.eqb (snd p) u && negb (String.eqb (fst p) u)) j = [].
Proof.
  induction j as [|[a b] j IH]; simpl; intros Hno; [reflexivity|].
  destruct (String.eqb_spec b u) as [->|]; simpl.
  - exfalso. apply (Hno a). left. reflexivity.
  - apply IH. intros s' Hs. apply (Hno s'). right. exact Hs.
Qed.

Lemma recipients_alone st u :
  In u (connected st) -> (forall s, ~ In (s, u) (joined st)) -> recipients st u = [u].
Proof.
  intros Hin Hno. unfold recipients, room_order.
  rewrite filter_joined_none by exact Hno.
  rewrite (proj2 (set_has_In u _) Hin). simpl.
  rewrite (proj2 (set_has_In u _) Hin). reflexivity.
Qed.

Lemma In_recipients_inv st x s :
  inv st ->
  In s (recipients st x) <-> In s (connected st) /\ (s = x \/ In s (members (rooms st) x)).
Proof. intros Hinv. rewrite In_recipients, (inv_joined _ Hinv). reflexivity. Qed.

Lemma reachable_joined_nodup st : reachable st -> NoDup (joined st).
Proof.
  induction 1 as [|st ev _ IH _]; [constructor|].
  destruct ev as [c|c r|c|c to p|c to p|c to p]; simpl; try exact IH.
  - unfold handleJoinRoom. cbn [joined]. unfold sio_join.
    destruct (existsb _ (joined st)) eqn:E; [exact IH|].
    apply NoDup_snoc; [|exact IH]. intros Hin.
    assert (E' : existsb (fun p => String.eqb (fst p) c && String.eqb (snd p) r) (joined st) = true).
    { apply existsb_exists. exists (c, r). simpl. rewrite !String.eqb_refl. auto. }
    congruence.
  - rewrite handleDisconnect_joined. cbn [joined sio_disconnect]. apply NoDup_filter. exact IH.
Qed.

Lemma recipients_nodup st x : NoDup (joined st) -> NoDup (recipients st x).
Proof.
  intros Hnd. unfold recipients. apply NoDup_filter. unfold room_order.
  set (P := fun p : string * string => String.eqb (snd p) x && negb (String.eqb (fst p) x)).
  assert (H : NoDup (List.map fst (List.filter P (joined st))) /\
              ~ In x (List.map fst (List.filter P (joined st)))).
  { induction Hnd as [|[a b] j Hn Hj IH]; simpl; [split; [constructor|tauto]|].
    destruct (P (a, b)) eqn:E; simpl; [|exact IH].
    unfold P in E. simpl in E. apply andb_true_iff in E as [Eb Ea].
    apply String.eqb_eq in Eb. apply negb_true_iff, String.eqb_neq in Ea. subst b.
    destruct IH as [IH1 IH2]. split.
    - constructor; [|exact IH1]. intros Hin. apply in_map_iff in Hin as ([a' b'] & E & Hin).
      simpl in E. subst a'. apply filter_joined_In in Hin as (Hin & -> & _). contradiction.
    - intros [E|Hin]; [congruence | contradiction]. }
  destruct H as [H1 H2]. destruct (set_has x (connected st)); simpl; [constructor|]; assumption.
Qed.

(** A member of a room is addressed alone when no room is named by the id
    of a connected socket. *)
Lemma member_addressed_alone st u x :
  inv st -> room_ids_distinct st -> In u (members (rooms st) x) ->
  recipients st u = [u].
Proof.
  intros Hinv Hd Hu. apply recipients_alone.
  - exact (inv_members_conn _ Hinv _ _ Hu).
  - intros s Hs. apply (inv_joined _ Hinv) in Hs. apply members_key in Hs.
    exact (Hd u Hs (inv_members_conn _ Hinv _ _ Hu)).
Qed.

(** ** Helpers for the claims *)

Lemma step_join st c r : step st (JoinRoom c r) = handleJoinRoom st c r.
Proof. reflexivity. Qed.

Lemma step_disconnect st c :
  step st (Disconnect c) = handleDisconnect (sio_disconnect st c) c.
Proof. reflexivity. Qed.

Lemma join_outbox st c r :
  outbox (handleJoinRoom st c r) =
  outbox st ++ flat_map (fun u => emit_to st u (UserJoined c)) (members (rooms st) r)
            ++ [(c, RoomUsers (set_delete c (set_add c (members (rooms st) r))))].
Proof.
  unfold handleJoinRoom. cbn [outbox]. rewrite <- app_assoc.
  assert (E : members (if map_has r (rooms st) then rooms st
                       else map_set r [] (rooms st)) r = members (rooms st) r).
  { destruct (map_has r (rooms st)) eqn:Hh; [reflexivity|].
    unfold members. rewrite map_get_set, String.eqb_refl.
    apply map_has_false in Hh. rewrite map_get_absent by exact Hh. reflexivity. }
  rewrite E. reflexivity.
Qed.

Lemma flat_map_emit_alone st (l : list string) m :
  (forall u, In u l -> recipients st u = [u]) ->
  flat_map (fun u => emit_to st u m) l = List.map (fun u => (u, m)) l.
Proof.
  induction l as [|u l IH]; simpl; intros H; [reflexivity|].
  unfold emit_to at 1. rewrite (H u (or_introl eq_refl)). simpl. f_equal.
  apply IH. intros v Hv. apply H. right. exact Hv.
Qed.

Lemma count_map_pair (l : list string) (m : msg) u :
  NoDup l ->
  count_occ out_eq_dec (List.map (fun v => (v, m)) l) (u, m) =
  if set_has u l then 1 else 0.
Proof.
  induction l as [|a l IH]; intros Hnd; [reflexivity|].
  inversion Hnd as [|? ? Hnot Hnd']; subst. cbn [List.map].
  unfold set_has. cbn [existsb].
  destruct (String.eqb_spec u a) as [->|Hne].
  - rewrite count_occ_cons_eq by reflexivity. simpl.
    assert (Hz : count_occ out_eq_dec (List.map (fun v => (v, m)) l) (a, m) = 0).
    { apply count_occ_not_In. rewrite in_map_iff.
      intros (v & E & Hv). injection E as ->. contradiction. }
    rewrite Hz. reflexivity.
  - rewrite count_occ_cons_neq by congruence. simpl. apply IH. exact Hnd'.
Qed.


Lemma reachable_run st evs :
  reachable st -> wf_traceb st evs = true -> reachable (run st evs).
Proof.
  revert st. induction evs as [|ev evs IH]; simpl; intros st Hr Hw; [exact Hr|].
  apply andb_true_iff in Hw as [Hw Hws]. apply IH; [|exact Hws].
  apply reach_step; [exact Hr|].
  destruct ev; simpl in *; try (apply set_has_In; exact Hw).
  apply set_has_false. apply negb_true_iff. exact Hw.
Qed.

Lemma room_ids_distinctb_sound st :
  room_ids_distinctb st = true -> room_ids_distinct st.
Proof.
  unfold room_ids_distinctb, room_ids_distinct. rewrite forallb_forall.
  intros H x Hx. apply set_has_false. apply negb_true_iff. exact (H x Hx).
Qed.


Lemma run_nonempty st evs :
  (forall k v, In (k, v) (rooms st) -> v <> []) ->
  forall k v, In (k, v) (rooms (run st evs)) -> v <> [].
Proof.
  revert st. induction evs as [|ev evs IH]; simpl; intros st H; [exact H|].
  apply IH. apply step_nonempty. exact H.
Qed.

(* ---------------------------------------------------------------- *)
(** ** Claims about the server *)

(** C2: after any sequence of events from the empty server, connection [c]
    is a member of room [r] exactly when it issued a join for [r] and has not
    disconnected since; a join by a connection that already is a member
    leaves the room's member set unchanged. *)
Theorem rooms_members_exact (evs : list event) (r c : string) :
  (In c (members (rooms (run init evs)) r) <-> live_join evs r c = true) /\
  (In c (members (rooms (run init evs)) r) ->
   members (rooms (step (run init evs) (JoinRoom c r))) r =
   members (rooms (run init evs)) r).
Proof.
  split.
  - rewrite <- set_has_In. unfold live_join.
    rewrite run_member_bool by (simpl; constructor). reflexivity.
  - intros H. rewrite step_join, join_members, String.eqb_refl. unfold set_add.
    apply set_has_In in H. rewrite H. reflexivity.
Qed.

Lemma rooms_members_exact_witness :
  In "A" (members (rooms (run init [Connect "A"; JoinRoom "A" "r"])) "r") /\
  members (rooms (step (run init [Connect "A"; JoinRoom "A" "r"]) (JoinRoom "A" "r"))) "r"
  = ["A"].
Proof.
  assert (H : In "A" (members (rooms (run init [Connect "A"; JoinRoom "A" "r"])) "r"))
    by (vm_compute; left; reflexivity).
  split; [exact H|].
  rewrite (proj2 (rooms_members_exact [Connect "A"; JoinRoom "A" "r"] "r" "A") H).
  vm_compute. reflexivity.
Defined.

(** C3 (amended): a join of [c] to [r], in a reachable state where no room
    is named by the id of a connected socket, makes [r]'s member set
    [set_add c old] (creating [r] if absent) and changes no other room; the
    messages it sends are, in order, one [user-joined c] to each member of
    [old] and then [room-users] listing [old] without [c] to [c] alone.
    Each connection receives [user-joined c] exactly once if it is in
    [old] and never otherwise; so a repeated join re-notifies every member,
    [c] included. *)
Theorem join_room_notifications st c r :
  reachable st -> room_ids_distinct st ->
  members (rooms (step st (JoinRoom c r))) r = set_add c (members (rooms st) r) /\
  (forall x, x <> r -> members (rooms (step st (JoinRoom c r))) x = members (rooms st) x) /\
  outbox (step st (JoinRoom c r)) = outbox st ++ joined_notes c (members (rooms st) r) /\
  (forall u, count_occ out_eq_dec (joined_notes c (members (rooms st) r)) (u, UserJoined c)
             = if set_has u (members (rooms st) r) then 1 else 0).
Proof.
  intros Hr Hd. pose proof (reachable_inv st Hr) as Hinv.
  rewrite step_join. split; [|split; [|split]].
  - rewrite join_members, String.eqb_refl. reflexivity.
  - intros x Hx. rewrite join_members.
    destruct (String.eqb_spec r x); [congruence|reflexivity].
  - rewrite join_outbox, set_delete_add. unfold joined_notes. f_equal. f_equal.
    apply flat_map_emit_alone. intros u Hu.
    exact (member_addressed_alone st u r Hinv Hd Hu).
  - intros u. unfold joined_notes. rewrite count_occ_app.
    rewrite count_map_pair by apply (inv_members_nodup _ Hinv).
    rewrite count_occ_cons_neq by congruence. cbn [count_occ].
    rewrite Nat.add_0_r. reflexivity.
Qed.

Lemma join_room_notifications_witness :
  let st := run init [Connect "A"; Connect "B"; JoinRoom "A" "r"] in
  reachable st /\ room_ids_distinct st /\
  outbox (step st (JoinRoom "B" "r")) =
  outbox st ++ [("A", UserJoined "B"); ("B", RoomUsers ["A"])].
Proof.
  intros st.
  assert (Hr : reachable st) by (apply reachable_run; [constructor | reflexivity]).
  assert (Hd : room_ids_distinct st)
    by (apply room_ids_distinctb_sound; vm_compute; reflexivity).
  split; [exact Hr|]. split; [exact Hd|].
  destruct (join_room_notifications st "B" "r" Hr Hd) as (_ & _ & Ho & _).
  rewrite Ho. vm_compute. reflexivity.
Defined.

(** C3 fails as stated: a repeated join sends [user-joined] to the joiner
    itself, carrying its own id. *)
Lemma join_room_repeat_notifies_joiner :
  let st := run init [Connect "A"; JoinRoom "A" "r"] in
  reachable st /\ In "A" (members (rooms st) "r") /\
  In ("A", UserJoined "A") (outbox (step st (JoinRoom "A" "r"))).
Proof.
  split; [apply reachable_run; [constructor | reflexivity]|].
  split; vm_compute; auto.
Qed.



(** C4 (code bug): [handleDisconnect] notifies each remaining member with
    [server.to(userId)], which addresses the socket.io room named [userId].
    When a room is named by the id of a connected socket ([X] joined room
    ["B"], [B] being a socket), the [user-left] meant for [B] also reaches
    [X], which shares no room with the leaving [A]. *)
Lemma disconnect_notifies_nonmember :
  let st := run init [Connect "A"; Connect "B"; Connect "X";
                      JoinRoom "X" "B"; JoinRoom "A" "r"; JoinRoom "B" "r"] in
  reachable st /\
  (forall x, In "X" (members (rooms st) x) -> ~ In "A" (members (rooms st) x)) /\
  ~ In ("X", UserLeft "A") (outbox st) /\
  In ("X", UserLeft "A") (outbox (step st (Disconnect "A"))).
Proof.
  split; [apply reachable_run; [constructor | reflexivity]|].
  split; [|split].
  - assert (E : rooms (run init [Connect "A"; Connect "B"; Connect "X";
                      JoinRoom "X" "B"; JoinRoom "A" "r"; JoinRoom "B" "r"])
                 = [("B", ["X"]); ("r", ["A"; "B"])]) by (vm_compute; reflexivity).
    intros x. rewrite E. unfold members. cbn [map_get].
    destruct (String.eqb "B" x); [|destruct (String.eqb "r" x)]; cbn;
      intros H1 H2; repeat destruct H1 as [H1|H1]; repeat destruct H2 as [H2|H2];
      try discriminate; contradiction.
  - vm_compute. intros H. repeat destruct H as [H|H]; try discriminate; contradiction.
  - vm_compute. tauto.
Qed.

(** C5: in every state reached from the empty server by any sequence of
    events, every room of the map has a non-empty member set. *)
Theorem rooms_never_empty (evs : list event) (k : string) (v : list string) :
  In (k, v) (rooms (run init evs)) -> v <> [].
Proof.
  apply run_nonempty. simpl. tauto.
Qed.

Lemma rooms_never_empty_witness :
  In ("r", ["A"]) (rooms (run init [Connect "A"; JoinRoom "A" "r"])) /\ ["A"] <> [].
Proof.
  assert (H : In ("r", ["A"]) (rooms (run init [Connect "A"; JoinRoom "A" "r"])))
    by (vm_compute; left; reflexivity).
  split; [exact H|]. exact (rooms_never_empty _ _ _ H).
Defined.

(** C8 (code bug): the relay handlers pass the target id to
    [server.to(data.to)], which addresses a socket.io room, not a single
    connection. An offer from [A] addressed to the room name ["r"], which is
    no registered connection, is not dropped but delivered to every member
    of that room, the sender [A] included, in the order they joined it. *)
Lemma relay_to_room_name_broadcasts :
  let st := run init [Connect "A"; Connect "B"; JoinRoom "A" "r"; JoinRoom "B" "r"] in
  reachable st /\ ~ In "r" (connected st) /\
  outbox (step st (Offer "A" "r" "sdp")) =
  outbox st ++ [("A", OfferMsg "sdp" "A"); ("B", OfferMsg "sdp" "A")].
Proof.
  split; [apply reachable_run; [constructor | reflexivity]|].
  split; [apply set_has_false; vm_compute; reflexivity|].
  vm_compute. reflexivity.
Qed.

End ServerFacts.

(* ================================================================== *)
(** ** Client: facts and claims *)
(* ================================================================== *)

Module ClientFacts.
Import stdpp.base stdpp.gmap stdpp.strings.
Import Client.

(** ** Frame lemmas *)

Lemma set_pcs_eta s : set_pcs s (pcs s) = s.
Proof. destruct s; reflexivity. Qed.

Lemma set_pcs_set_pcs s m1 m2 : set_pcs (set_pcs s m1) m2 = set_pcs s m2.
Proof. reflexivity. Qed.

Lemma kind_eqb_refl k : kind_eqb k k = true.
Proof. destruct k; reflexivity. Qed.

(** [replaceTrack] with a track of the sender's kind is idempotent. *)
Lemma replace_first_sender_idem k t ss :
  kind_eqb (kind t) k = true ->
  replace_first_sender k t (replace_first_sender k t ss) = replace_first_sender k t ss.
Proof.
  intros Hk. induction ss as [|[t'|] ss IH]; simpl; [reflexivity| |].
  - destruct (kind_eqb (kind t') k) eqn:E; simpl.
    + rewrite Hk. reflexivity.
    + rewrite E, IH. reflexivity.
  - rewrite IH. reflexivity.
Qed.

Lemma replaceTrack_kind_idem k t rc :
  kind_eqb (kind t) k = true ->
  replaceTrack_kind k t (replaceTrack_kind k t rc) = replaceTrack_kind k t rc.
Proof.
  intros Hk. unfold replaceTrack_kind, set_senders. simpl.
  rewrite replace_first_sender_idem by exact Hk. reflexivity.
Qed.

(** One iteration of the [forEach] of [toggleAudio] / [toggleVideo]. *)
Lemma replace_step_spec k t s (e : string * nat) :
  let s1 := match objs s !! e.2 with
            | Some p => update_pc s (connection p) (replaceTrack_kind k t)
            | None => s
            end in
  s1 = set_pcs s (pcs s1) /\
  forall i, pcs s1 !! i =
    match objs s !! e.2 with
    | Some p => if Nat.eq_dec (connection p) i then replaceTrack_kind k t <$> pcs s !! i
                else pcs s !! i
    | None => pcs s !! i
    end.
Proof.
  intros s1. subst s1. destruct (objs s !! e.2) as [p|] eqn:Ep.
  - unfold update_pc. destruct (pcs s !! connection p) as [rc|] eqn:E.
    + split; [reflexivity|]. intros i. simpl.
      destruct (Nat.eq_dec (connection p) i) as [<-|Hne].
      * rewrite lookup_insert_eq, E. reflexivity.
      * rewrite lookup_insert_ne by exact Hne. reflexivity.
    + split; [symmetry; apply set_pcs_eta|]. intros i.
      destruct (Nat.eq_dec (connection p) i) as [<-|Hne]; [rewrite E|]; reflexivity.
  - split; [symmetry; apply set_pcs_eta|]. reflexivity.
Qed.

Lemma live_dec (l : list (string * nat)) (o : gmap nat peer) i :
  {exists e p, e ∈ l /\ o !! e.2 = Some p /\ connection p = i} +
  {~ exists e p, e ∈ l /\ o !! e.2 = Some p /\ connection p = i}.
Proof.
  induction l as [|e l IH].
  - right. intros (e & p & He & _). apply elem_of_nil in He. exact He.
  - destruct (o !! e.2) as [p|] eqn:Ep;
      [destruct (Nat.eq_dec (connection p) i) as [Hc|Hc]|].
    + left. exists e, p. split; [apply elem_of_cons; left; reflexivity|auto].
    + destruct IH as [Hl|Hn].
      * left. destruct Hl as (e' & p' & H1 & H2 & H3).
        exists e', p'. split; [apply elem_of_cons; right; exact H1|auto].
      * right. intros (e' & p' & H1 & H2 & H3). apply elem_of_cons in H1 as [->|H1].
        -- congruence.
        -- apply Hn. eauto.
    + destruct IH as [Hl|Hn].
      * left. destruct Hl as (e' & p' & H1 & H2 & H3).
        exists e', p'. split; [apply elem_of_cons; right; exact H1|auto].
      * right. intros (e' & p' & H1 & H2 & H3). apply elem_of_cons in H1 as [->|H1].
        -- congruence.
        -- apply Hn. eauto.
Defined.

Lemma replace_fold_spec k t (l : list (string * nat)) s :
  kind_eqb (kind t) k = true ->
  let s' := fold_left (fun s e => match objs s !! e.2 with
                                  | Some p => update_pc s (connection p) (replaceTrack_kind k t)
                                  | None => s
                                  end) l s in
  s' = set_pcs s (pcs s') /\
  (forall i, (exists e p, e ∈ l /\ objs s !! e.2 = Some p /\ connection p = i) ->
             pcs s' !! i = replaceTrack_kind k t <$> pcs s !! i) /\
  (forall i, ~ (exists e p, e ∈ l /\ objs s !! e.2 = Some p /\ connection p = i) ->
             pcs s' !! i = pcs s !! i).
Proof.
  intros Hk. revert s. induction l as [|e l IH]; intros s; simpl.
  - split; [symmetry; apply set_pcs_eta|]. split.
    + intros i (e & p & He & _). apply elem_of_nil in He. contradiction.
    + reflexivity.
  - destruct (replace_step_spec k t s e) as [Hs1 Hp1].
    set (s1 := match objs s !! e.2 with
               | Some p => update_pc s (connection p) (replaceTrack_kind k t)
               | None => s
               end) in *.
    assert (Ho : objs s1 = objs s) by (rewrite Hs1; reflexivity).
    destruct (IH s1) as (Hs' & Hin & Hout). rewrite Ho in Hin, Hout.
    split; [rewrite Hs' at 1; rewrite Hs1; reflexivity|]. split.
    + intros i (e' & p & He' & Hp & Hc).
      apply elem_of_cons in He' as [->|He'].
      * destruct (live_dec l (objs s) i) as [Hl|Hl].
        -- rewrite Hin by exact Hl. rewrite Hp1, Hp.
           destruct (Nat.eq_dec (connection p) i) as [_|]; [|contradiction].
           destruct (pcs s !! i); simpl; [|reflexivity].
           rewrite replaceTrack_kind_idem by exact Hk. reflexivity.
        -- rewrite Hout by exact Hl. rewrite Hp1, Hp.
           destruct (Nat.eq_dec (connection p) i); [reflexivity|contradiction].
      * rewrite Hin by eauto. rewrite Hp1.
        destruct (objs s !! e.2) as [q|]; [|reflexivity].
        destruct (Nat.eq_dec (connection q) i); [|reflexivity].
        destruct (pcs s !! i); simpl; [|reflexivity].
        rewrite replaceTrack_kind_idem by exact Hk. reflexivity.
    + intros i Hn. rewrite Hout.
      * rewrite Hp1. destruct (objs s !! e.2) as [q|] eqn:Eq; [|reflexivity].
        destruct (Nat.eq_dec (connection q) i) as [Hc|]; [|reflexivity].
        exfalso. apply Hn. exists e, q. split; [apply elem_of_cons; left; reflexivity|auto].
      * intros (e' & p & He' & Hp & Hc). apply Hn. exists e', p.
        split; [apply elem_of_cons; right; exact He'|auto].
Qed.


(** A peer whose [PeerConnection] is already in [peersRef] is left alone by
    the [room-users] and [user-joined] handlers. *)
Lemma existing_peer_untouched s uid pr :
  peersRef s !! uid = Some pr ->
  offerTo s uid = s /\ handleUserJoined s uid = s.
Proof. intros H. unfold offerTo, handleUserJoined. rewrite H. auto. Qed.

Lemma handleRoomUsers_existing s users :
  Forall (fun uid => is_Some (peersRef s !! uid)) users ->
  handleRoomUsers s users = s.
Proof.
  unfold handleRoomUsers. induction 1 as [|uid users [pr Hpr] _ IH]; [reflexivity|].
  simpl. rewrite (proj1 (existing_peer_untouched s uid pr Hpr)). exact IH.
Qed.

(** ** Claims *)

(** C9: toggling the audio ([k = Audio]) or video ([k = Video]) track emits
    nothing and leaves [peersRef], the [PeerConnection] records (candidate
    queue, remote-description flag, stream), [next_ref], the local stream
    and the other toggle untouched: the state only differs in the track's
    [enabled] flag, the matching [is..Enabled] flag and the connections. A
    connection reached from [peersRef] gets [replaceTrack_kind k t], the
    same substitution for each, which changes only its senders (its
    signaling state, descriptions and candidates stay); every other
    connection is unchanged. Without a local stream or a track of that kind
    nothing changes. *)
Theorem toggle_frame (s : orch) (k : track_kind) :
  let s' := match k with Audio => toggleAudio s | Video => toggleVideo s end in
  match localStreamRef s with
  | Some tracks =>
      match first_track k tracks with
      | Some t =>
          let en := negb (track_enabled s t) in
          s' = set_pcs ((match k with
                         | Audio => set_isAudioEnabled
                         | Video => set_isVideoEnabled
                         end) (set_trackEnabled s (<[track_id t := en]> (trackEnabled s))) en)
                       (pcs s') /\
          (forall i, (exists uid pr p, peersRef s !! uid = Some pr /\ objs s !! pr = Some p /\
                                       connection p = i) ->
                     pcs s' !! i = replaceTrack_kind k t <$> pcs s !! i) /\
          (forall i, ~ (exists uid pr p, peersRef s !! uid = Some pr /\ objs s !! pr = Some p /\
                                         connection p = i) ->
                     pcs s' !! i = pcs s !! i)
      | None => s' = s
      end
  | None => s' = s
  end.
Proof.
  intros s'. subst s'.
  destruct k; unfold toggleAudio, toggleVideo;
    (destruct (localStreamRef s) as [tracks|]; [|reflexivity]);
    destruct (first_track _ tracks) as [t|] eqn:Ft; try reflexivity;
    cbv zeta;
    (apply find_some in Ft as [_ Hk];
      unfold replace_in_peers;
      match goal with |- context [fold_left ?f (map_to_list (peersRef ?s1)) ?s1] =>
        destruct (replace_fold_spec _ _ (map_to_list (peersRef s1)) s1 Hk) as (A & B & C)
      end;
      split; [exact A|]; split;
      [ intros i (uid & pr & p & H1 & H2 & H3); apply B;
        exists (uid, pr), p; split; [apply elem_of_map_to_list; exact H1|auto]
      | intros i Hi; apply C; intros (e & p & H1 & H2 & H3); apply Hi;
        exists e.1, e.2, p; split; [apply elem_of_map_to_list'; exact H1|auto] ]).
Qed.

(** C10: an answer or an ICE candidate from a user without an entry in
    [peersRef] leaves the whole orchestrator state unchanged: nothing is
    created, queued or applied. *)
Theorem unknown_sender_ignored (s : orch) (answer candidate from : string) :
  peersRef s !! from = None ->
  handleAnswer s answer from = s /\ handleIceCandidate s candidate from = s.
Proof. intros H. unfold handleAnswer, handleIceCandidate. rewrite H. auto. Qed.

Lemma unknown_sender_ignored_witness :
  peersRef orch_init !! "A" = None /\
  handleAnswer orch_init "answer" "A" = orch_init /\
  handleIceCandidate orch_init "c1" "A" = orch_init.
Proof.
  split; [reflexivity|].
  apply (unknown_sender_ignored orch_init "answer" "c1" "A"). reflexivity.
Defined.

(** When a connection [pcr] reports [failed] or [disconnected], and the
    connection stored in [peersRef] for its user is in signaling state
    [stable], the handler calls [restartIce()] on that stored connection,
    which marks it for an ICE restart, and changes nothing else: no message
    is sent, and [peersRef] and the [PeerConnection] records (identity,
    stream, candidate queue, flag) are unchanged. *)
Theorem restart_keeps_peerlink (s : orch) (pcr pr : nat) (rc : rtc) (p : peer) (prc : rtc) :
  pcs s !! pcr = Some rc ->
  connectionState rc = CsFailed \/ connectionState rc = CsDisconnected ->
  peersRef s !! owner rc = Some pr ->
  objs s !! pr = Some p ->
  pcs s !! connection p = Some prc ->
  signalingState prc = Stable ->
  let s' := onconnectionstatechange s pcr in
  s' = set_pcs s (<[connection p := restartIce prc]> (pcs s)) /\
  sent s' = sent s /\ peersRef s' = peersRef s /\ objs s' = objs s.
Proof.
  intros H1 H2 H3 H4 H5 H6 s'. subst s'.
  assert (E : onconnectionstatechange s pcr = set_pcs s (<[connection p := restartIce prc]> (pcs s))).
  { unfold onconnectionstatechange. rewrite H1, H3, H4, H5, H6. simpl.
    unfold update_pc. rewrite H5.
    destruct H2 as [-> | ->]; reflexivity. }
  rewrite E. auto.
Qed.

Lemma restart_keeps_peerlink_witness :
  let s := update_pc (handleOffer (handleUserJoined orch_init "B") "o1" "B") 0
             (fun rc => set_connectionState rc CsFailed) in
  let rc := mkRtc "B" Stable CsFailed IceNew (Some "answer") (Some "o1") [] false
              [Some (mkTrack 1 Audio); Some (mkTrack 2 Video)] in
  let p := mkPeer "B" 0 None [] true in
  pcs s !! 0 = Some rc /\ peersRef s !! "B" = Some 1 /\ objs s !! 1 = Some p /\
  (let s' := onconnectionstatechange s 0 in
   s' = set_pcs s (<[0 := restartIce rc]> (pcs s)) /\
   sent s' = sent s /\ peersRef s' = peersRef s /\ objs s' = objs s).
Proof.
  intros s rc p.
  assert (H1 : pcs s !! 0 = Some rc) by (vm_compute; reflexivity).
  assert (H3 : peersRef s !! "B" = Some 1) by (vm_compute; reflexivity).
  assert (H4 : objs s !! 1 = Some p) by (vm_compute; reflexivity).
  split; [exact H1|]. split; [exact H3|]. split; [exact H4|].
  exact (restart_keeps_peerlink s 0 1 rc p rc H1 (or_introl eq_refl) H3 H4 H1 eq_refl).
Defined.

(** C6 (code bug): the handler attempts an ICE restart with
    [restartIce()], but [createPeerConnection] installs no
    [negotiationneeded] handler, so no restart offer is ever created or
    sent. User [B] joins, sends an offer that is answered, and the
    connection goes [connected] then [failed]: the connection is only
    marked for an ICE restart, and the messages sent are still just the
    answer. *)
Lemma restart_sends_no_offer :
  let s0 := handleOffer (handleUserJoined orch_init "B") "o1" "B" in
  let s2 := connection_state_change (connection_state_change s0 0 CsConnected) 0 CsFailed in
  sent s0 = [SendAnswer "answer" "B"] /\ sent s2 = sent s0 /\
  peersRef s2 = peersRef s0 /\ objs s2 = objs s0 /\
  option_map connectionState (pcs s2 !! 0) = Some CsFailed /\
  option_map signalingState (pcs s2 !! 0) = Some Stable /\
  option_map iceRestart (pcs s2 !! 0) = Some true.
Proof. vm_compute. repeat split. Qed.

(** C1: an offer from [A] while [peersRef] has no entry for [A], then an
    ICE candidate from [A]. [handleOffer] applies the remote description to
    the connection but sets [remoteDescriptionSet] on an object it does not
    store, so the record in [peersRef] keeps the flag false: the candidate
    is queued there although the remote description is applied, and it is
    not applied to the connection. *)
Theorem offer_without_peer_strands_candidates :
  let s := handleIceCandidate (handleOffer orch_init "o1" "A") "c1" "A" in
  peersRef s !! "A" = Some 1 /\
  objs s !! 1 = Some (mkPeer "A" 0 None ["c1"] false) /\
  option_map remoteDescription (pcs s !! 0) = Some (Some "o1") /\
  option_map signalingState (pcs s !! 0) = Some Stable /\
  option_map appliedCandidates (pcs s !! 0) = Some [] /\
  sent s = [SendAnswer "answer" "A"].
Proof. vm_compute. repeat split. Qed.

(** C7: the component mounts, gets its media, its socket connects and the
    join effect emits [join-room]. Setting [hasJoinedRoom] re-runs the
    socket effect; its [cleanup] drops the local stream and resets
    [hasJoinedRoom], and the new socket (instance 2) connects. The ['connect']
    handler and the join effect emit nothing on it: the join is not
    reissued after the new connection. *)
Theorem rejoin_not_reissued :
  let c1 := crun "room1" comp_init [Commit; Commit; MediaReady cam_tracks; SocketConnect 0; Commit] in
  let c2 := crun "room1" c1 [Commit; Commit; Commit; SocketConnect 2; Commit] in
  emitted c1 = [(0, SendJoinRoom "room1")] /\ hasJoinedRoom c1 = true /\
  socketRef c2 = Some 2 /\ sockets c2 !! 2 = Some (mkSock false true true) /\
  isConnected c2 = true /\ hasJoinedRoom c2 = false /\
  emitted c2 = [(0, SendJoinRoom "room1")].
Proof. vm_compute. repeat split. Qed.

End ClientFacts.

(* ================================================================== *)
(** ** Server: further properties of the gateway *)
(* ================================================================== *)

Module ServerExtras.
Import Server ServerFacts.




Lemma disconnect_rooms_untouched st c rs :
  (forall k v, In (k, v) rs -> ~ In c v) -> disconnect_rooms st c rs = (rs, []).
Proof.
  induction rs as [|[rid users] rest IH]; simpl; intros H; [reflexivity|].
  rewrite IH by (intros k v Hin; exact (H k v (or_intror Hin))).
  assert (Hc : set_has c users = false)
    by (apply set_has_false; exact (H rid users (or_introl eq_refl))).
  rewrite Hc. reflexivity.
Qed.

(** [Map.set] on a key the map does not have leaves the old entries. *)
Lemma map_replace_absent k v (m : room_map) :
  ~ In k (List.map fst m) ->
  List.map (fun e => if String.eqb (fst e) k then (fst e, v) else e) m = m.
Proof.
  induction m as [|[k' v'] m IH]; simpl; intros H; [reflexivity|].
  destruct (String.eqb_spec k' k) as [->|_]; [exfalso; apply H; left; reflexivity|].
  rewrite IH by (intros Hk; apply H; right; exact Hk). reflexivity.
Qed.

(** [Map.set] of a key to the value it already has. *)
Lemma map_replace_same k (m : room_map) :
  NoDup (List.map fst m) ->
  List.map (fun e => if String.eqb (fst e) k then (fst e, members m k) else e) m = m.
Proof.
  intros Hnd. rewrite <- (map_id m) at 2. apply map_ext_in. intros [k' v] Hin. simpl.
  destruct (String.eqb_spec k' k) as [->|_]; [|reflexivity].
  rewrite (in_rooms_members k v m Hnd Hin). reflexivity.
Qed.

(** In every reachable state the room map has no duplicate room ids, no
    room lists a socket twice, every member of a room is a connected socket
    (a disconnected socket is in no room), the connected sockets are
    distinct, and the socket.io adapter's room records agree with the
    gateway's map: socket [s] is in socket.io room [x] exactly when it is a
    member of room [x] of the map. *)
Theorem reachable_rooms_consistent st :
  reachable st ->
  NoDup (connected st) /\ NoDup (List.map fst (rooms st)) /\
  (forall x, NoDup (members (rooms st) x)) /\
  (forall s x, In s (members (rooms st) x) -> In s (connected st)) /\
  (forall s x, In (s, x) (joined st) <-> In s (members (rooms st) x)).
Proof.
  intros Hr. destruct (reachable_inv st Hr) as [H1 H2 H3 H4 H5]. auto 6.
Qed.

Lemma reachable_rooms_consistent_witness :
  let st := run init [Connect "A"; Connect "B"; JoinRoom "A" "r"; JoinRoom "B" "r";
                      Disconnect "A"] in
  reachable st /\ members (rooms st) "r" = ["B"] /\
  (forall s x, In s (members (rooms st) x) -> In s (connected st)).
Proof.
  intros st.
  assert (Hr : reachable st) by (apply reachable_run; [constructor | reflexivity]).
  split; [exact Hr|]. split; [vm_compute; reflexivity|].
  exact (proj1 (proj2 (proj2 (proj2 (reachable_rooms_consistent st Hr))))).
Defined.

(** A disconnect of a socket that is a member of no room changes no room
    and sends no message. *)
Theorem disconnect_outside_rooms st c :
  (forall k v, In (k, v) (rooms st) -> ~ In c v) ->
  rooms (step st (Disconnect c)) = rooms st /\
  outbox (step st (Disconnect c)) = outbox st.
Proof.
  intros H. rewrite step_disconnect. unfold handleDisconnect. cbn [rooms sio_disconnect].
  rewrite (disconnect_rooms_untouched _ c (rooms st) H). simpl.
  rewrite app_nil_r. auto.
Qed.

Lemma disconnect_outside_rooms_witness :
  let st := run init [Connect "A"; Connect "B"; JoinRoom "A" "r"] in
  (forall k v, In (k, v) (rooms st) -> ~ In "B" v) /\
  rooms (step st (Disconnect "B")) = rooms st /\
  outbox (step st (Disconnect "B")) = outbox st.
Proof.
  intros st.
  assert (H : forall k v, In (k, v) (rooms st) -> ~ In "B" v).
  { intros k v Hin. vm_compute in Hin. destruct Hin as [E|[]].
    inversion E; subst. intros [E'|[]]. discriminate. }
  split; [exact H|]. exact (disconnect_outside_rooms st "B" H).
Defined.

(** A join to a room id the map does not have appends the room at the end
    of the map with the joiner as its only member, and the only message
    sent is an empty [room-users] list to the joiner. *)
Theorem join_new_room st c r :
  ~ In r (List.map fst (rooms st)) ->
  rooms (step st (JoinRoom c r)) = rooms st ++ [(r, [c])] /\
  outbox (step st (JoinRoom c r)) = outbox st ++ [(c, RoomUsers [])].
Proof.
  intros Hr. rewrite step_join. split.
  - unfold handleJoinRoom. cbn [rooms].
    assert (Hh : map_has r (rooms st) = false) by (apply map_has_false; exact Hr).
    rewrite Hh. unfold map_set at 2. rewrite Hh.
    assert (Hm : members (rooms st ++ [(r, [])]) r = []).
    { unfold members. rewrite map_get_app, map_get_absent by exact Hr.
      simpl. rewrite String.eqb_refl. reflexivity. }
    rewrite Hm. unfold set_add. simpl. unfold map_set. rewrite !Hh.
    assert (Hh2 : map_has r (rooms st ++ [(r, [])]) = true).
    { apply map_has_In. rewrite map_app. apply in_or_app. right. left. reflexivity. }
    rewrite Hh2, map_app, map_replace_absent by exact Hr. simpl.
    rewrite String.eqb_refl. reflexivity.
  - rewrite join_outbox, members_absent by exact Hr. simpl.
    rewrite String.eqb_refl. reflexivity.
Qed.

Lemma join_new_room_witness :
  let st := run init [Connect "A"; Connect "B"; JoinRoom "A" "r"] in
  ~ In "s" (List.map fst (rooms st)) /\
  rooms (step st (JoinRoom "B" "s")) = rooms st ++ [("s", ["B"])] /\
  outbox (step st (JoinRoom "B" "s")) = outbox st ++ [("B", RoomUsers [])].
Proof.
  intros st.
  assert (H : ~ In "s" (List.map fst (rooms st)))
    by (vm_compute; intros [E|[]]; discriminate).
  split; [exact H|]. exact (join_new_room st "B" "s" H).
Defined.

(** A join by a socket that already is a member of the room leaves the
    room map, the socket.io room records and the connected sockets as they
    were (only messages are sent). *)
Theorem join_member_again st c r :
  reachable st -> In c (members (rooms st) r) ->
  rooms (step st (JoinRoom c r)) = rooms st /\
  joined (step st (JoinRoom c r)) = joined st /\
  connected (step st (JoinRoom c r)) = connected st.
Proof.
  intros Hr Hc. destruct (reachable_inv st Hr) as [_ Hk Hj _ _].
  rewrite step_join. unfold handleJoinRoom. cbn [rooms joined connected].
  assert (Hh : map_has r (rooms st) = true)
    by (apply map_has_In; exact (members_key _ _ _ Hc)).
  rewrite Hh.
  assert (Ha : set_add c (members (rooms st) r) = members (rooms st) r)
    by (unfold set_add; rewrite (proj2 (set_has_In _ _) Hc); reflexivity).
  rewrite Ha. split; [|split; [|reflexivity]].
  - unfold map_set. rewrite Hh. apply map_replace_same. exact Hk.
  - unfold sio_join.
    assert (Hin : In (c, r) (joined st)) by (apply Hj; exact Hc).
    replace (existsb _ (joined st)) with true; [reflexivity|].
    symmetry. apply existsb_exists. exists (c, r). split; [exact Hin|].
    simpl. rewrite !String.eqb_refl. reflexivity.
Qed.

Lemma join_member_again_witness :
  let st := run init [Connect "A"; Connect "B"; JoinRoom "A" "r"; JoinRoom "B" "r"] in
  reachable st /\ In "A" (members (rooms st) "r") /\
  rooms (step st (JoinRoom "A" "r")) = rooms st /\
  joined (step st (JoinRoom "A" "r")) = joined st /\
  connected (step st (JoinRoom "A" "r")) = connected st.
Proof.
  intros st.
  assert (Hr : reachable st) by (apply reachable_run; [constructor | reflexivity]).
  assert (Hc : In "A" (members (rooms st) "r")) by (vm_compute; left; reflexivity).
  split; [exact Hr|]. split; [exact Hc|]. exact (join_member_again st "A" "r" Hr Hc).
Defined.





(** A relayed offer, answer or ICE candidate from [c] to [to] changes no
    server state and delivers the payload unchanged, with [from = c], once
    to each connected socket that is [to] itself or a member of the room
    named [to] ([server.to(x)] addresses a socket.io room). When [to] names
    neither a connected socket nor a room, nothing is delivered; when [to]
    is a connected socket and names no room, only [to] receives it. *)
Theorem relay_addressing st c to p :
  reachable st ->
  step st (Offer c to p) = mkState (connected st) (joined st) (rooms st)
    (outbox st ++ List.map (fun s => (s, OfferMsg p c)) (recipients st to)) /\
  step st (Answer c to p) = mkState (connected st) (joined st) (rooms st)
    (outbox st ++ List.map (fun s => (s, AnswerMsg p c)) (recipients st to)) /\
  step st (IceCandidate c to p) = mkState (connected st) (joined st) (rooms st)
    (outbox st ++ List.map (fun s => (s, IceMsg p c)) (recipients st to)) /\
  (forall s, In s (recipients st to) <->
             In s (connected st) /\ (s = to \/ In s (members (rooms st) to))) /\
  NoDup (recipients st to) /\
  (~ In to (connected st) -> ~ In to (List.map fst (rooms st)) -> recipients st to = []) /\
  (In to (connected st) -> ~ In to (List.map fst (rooms st)) -> recipients st to = [to]).
Proof.
  intros Hr. pose proof (reachable_inv st Hr) as Hinv.
  split; [reflexivity|]. split; [reflexivity|]. split; [reflexivity|].
  split; [intros s; apply In_recipients_inv, Hinv|].
  split; [apply recipients_nodup, reachable_joined_nodup, Hr|].
  assert (Hno : ~ In to (List.map fst (rooms st)) -> forall s, ~ In (s, to) (joined st)).
  { intros Hk s Hs. apply (inv_joined _ Hinv) in Hs. apply members_key in Hs. contradiction. }
  split.
  - intros Hc Hk. destruct (recipients st to) as [|s l] eqn:E; [reflexivity|].
    exfalso. assert (Hs : In s (recipients st to)) by (rewrite E; left; reflexivity).
    apply In_recipients in Hs as [Hs [->|Hj]]; [contradiction|]. exact (Hno Hk s Hj).
  - intros Hc Hk. apply recipients_alone; [exact Hc|]. exact (Hno Hk).
Qed.

Lemma relay_addressing_witness :
  let st := run init [Connect "A"; Connect "B"; JoinRoom "A" "r"; JoinRoom "B" "r"] in
  reachable st /\ ~ In "C" (connected st) /\ ~ In "C" (List.map fst (rooms st)) /\
  recipients st "C" = [].
Proof.
  intros st.
  assert (Hr : reachable st) by (apply reachable_run; [constructor | reflexivity]).
  assert (Hc : ~ In "C" (connected st)) by (apply set_has_false; vm_compute; reflexivity).
  assert (Hk : ~ In "C" (List.map fst (rooms st)))
    by (apply map_has_false; vm_compute; reflexivity).
  split; [exact Hr|]. split; [exact Hc|]. split; [exact Hk|].
  destruct (relay_addressing st "A" "C" "sdp" Hr) as (_ & _ & _ & _ & _ & Hnone & _).
  exact (Hnone Hc Hk).
Defined.

End ServerExtras.

(* ================================================================== *)
(** ** Client: further properties of the orchestrator *)
(* ================================================================== *)

Module ClientExtras.
Import stdpp.base stdpp.gmap stdpp.strings.
Import Client ClientFacts.

(** ** Helpers *)

Lemma update_pc_lookup s i f j :
  pcs (update_pc s i f) !! j = if decide (i = j) then f <$> pcs s !! i else pcs s !! j.
Proof.
  unfold update_pc. destruct (pcs s !! i) as [rc|] eqn:E;
    destruct (decide (i = j)) as [<-|Hne]; simpl.
  - rewrite lookup_insert_eq. reflexivity.
  - rewrite lookup_insert_ne by exact Hne. reflexivity.
  - rewrite E. reflexivity.
  - reflexivity.
Qed.

Lemma update_pc_frame s i f : update_pc s i f = set_pcs s (pcs (update_pc s i f)).
Proof. unfold update_pc. destruct (pcs s !! i); [reflexivity|symmetry; apply set_pcs_eta]. Qed.

Lemma set_objs_eta s : set_objs s (objs s) = s.
Proof. destruct s; reflexivity. Qed.

(** [addIceCandidate] over a list, on an open connection with a remote
    description: the candidates are applied in order. *)
Lemma fold_addIceCandidate q rc d :
  signalingState rc <> SignalingClosed -> remoteDescription rc = Some d ->
  fold_left addIceCandidate q rc =
  mkRtc (owner rc) (signalingState rc) (connectionState rc) (iceConnectionState rc)
    (localDescription rc) (remoteDescription rc) (appliedCandidates rc ++ q)
    (iceRestart rc) (senders rc).
Proof.
  revert rc. induction q as [|x q IH]; intros rc Hs Hd; simpl.
  - rewrite app_nil_r. destruct rc; reflexivity.
  - assert (E : addIceCandidate rc x =
      mkRtc (owner rc) (signalingState rc) (connectionState rc) (iceConnectionState rc)
        (localDescription rc) (remoteDescription rc) (appliedCandidates rc ++ [x])
        (iceRestart rc) (senders rc)).
    { unfold addIceCandidate. rewrite Hd. destruct (signalingState rc); congruence. }
    rewrite E, IH by (simpl; assumption). simpl. rewrite <- app_assoc. reflexivity.
Qed.

(** Candidates from a known user whose record has no remote description are
    appended to its queue, in arrival order. *)
Lemma ice_fold_buffer s from pr p cs :
  peersRef s !! from = Some pr -> objs s !! pr = Some p -> remoteDescriptionSet p = false ->
  fold_left (fun s c => handleIceCandidate s c from) cs s =
  set_objs s (<[pr := set_queue p (iceCandidates p ++ cs)]> (objs s)).
Proof.
  revert s p. induction cs as [|c cs IH]; intros s p H1 H2 H3; simpl.
  - rewrite app_nil_r.
    replace (set_queue p (iceCandidates p)) with p by (destruct p; reflexivity).
    rewrite insert_id by exact H2. symmetry. apply set_objs_eta.
  - unfold handleIceCandidate at 2. rewrite H1, H2, H3. simpl.
    rewrite (IH _ (set_queue p (iceCandidates p ++ [c]))); simpl.
    + rewrite insert_insert_eq, <- app_assoc. reflexivity.
    + exact H1.
    + apply lookup_insert_eq.
    + exact H3.
Qed.

(** A generic [forEach] over [peersRef] applying an idempotent update to
    each peer's connection. *)
Lemma update_fold_spec (f : rtc -> rtc) (l : list (string * nat)) s :
  (forall rc, f (f rc) = f rc) ->
  let s' := fold_left (fun s e => match objs s !! e.2 with
                                  | Some p => update_pc s (connection p) f
                                  | None => s
                                  end) l s in
  s' = set_pcs s (pcs s') /\
  (forall i, (exists e p, e ∈ l /\ objs s !! e.2 = Some p /\ connection p = i) ->
             pcs s' !! i = f <$> pcs s !! i) /\
  (forall i, ~ (exists e p, e ∈ l /\ objs s !! e.2 = Some p /\ connection p = i) ->
             pcs s' !! i = pcs s !! i).
Proof.
  intros Hf. revert s. induction l as [|e l IH]; intros s; simpl.
  - split; [symmetry; apply set_pcs_eta|]. split.
    + intros i (e & p & He & _). apply elem_of_nil in He. contradiction.
    + reflexivity.
  - set (s1 := match objs s !! e.2 with
               | Some p => update_pc s (connection p) f
               | None => s
               end).
    assert (Hs1 : s1 = set_pcs s (pcs s1)).
    { subst s1. destruct (objs s !! e.2); [apply update_pc_frame|symmetry; apply set_pcs_eta]. }
    assert (Hp1 : forall i, pcs s1 !! i =
              match objs s !! e.2 with
              | Some p => if decide (connection p = i) then f <$> pcs s !! i else pcs s !! i
              | None => pcs s !! i
              end).
    { intros i. subst s1. destruct (objs s !! e.2) as [p|]; [|reflexivity].
      rewrite update_pc_lookup. destruct (decide (connection p = i)) as [<-|]; reflexivity. }
    clearbody s1.
    assert (Ho : objs s1 = objs s) by (rewrite Hs1; reflexivity).
    destruct (IH s1) as (Hs' & Hin & Hout). rewrite Ho in Hin, Hout.
    split; [rewrite Hs' at 1; rewrite Hs1; reflexivity|]. split.
    + intros i (e' & p & He' & Hp & Hc).
      apply elem_of_cons in He' as [->|He'].
      * destruct (live_dec l (objs s) i) as [Hl|Hl].
        -- rewrite Hin by exact Hl. rewrite Hp1, Hp.
           rewrite decide_True by exact Hc.
           destruct (pcs s !! i); simpl; [rewrite Hf|]; reflexivity.
        -- rewrite Hout by exact Hl. rewrite Hp1, Hp.
           rewrite decide_True by exact Hc. reflexivity.
      * rewrite Hin by eauto. rewrite Hp1.
        destruct (objs s !! e.2) as [q|]; [|reflexivity].
        destruct (decide (connection q = i)); [|reflexivity].
        destruct (pcs s !! i); simpl; [rewrite Hf|]; reflexivity.
    + intros i Hn. rewrite Hout.
      * rewrite Hp1. destruct (objs s !! e.2) as [q|] eqn:Eq; [|reflexivity].
        destruct (decide (connection q = i)) as [Hc|]; [|reflexivity].
        exfalso. apply Hn. exists e, q. split; [apply elem_of_cons; left; reflexivity|auto].
      * intros (e' & p & He' & Hp & Hc). apply Hn. exists e', p.
        split; [apply elem_of_cons; right; exact He'|auto].
Qed.


(** The answer path of [handleAnswer] for a known user whose connection
    has sent an offer. *)
Lemma answer_flushes s from pr p rc a :
  peersRef s !! from = Some pr -> objs s !! pr = Some p ->
  pcs s !! connection p = Some rc -> signalingState rc = HaveLocalOffer ->
  let s' := handleAnswer s a from in
  peersRef s' = peersRef s /\ sent s' = sent s /\
  objs s' !! pr = Some (mkPeer (userId p) (connection p) (stream p) [] true) /\
  pcs s' !! connection p =
    Some (mkRtc (owner rc) Stable (connectionState rc) (iceConnectionState rc)
            (localDescription rc) (Some a) (appliedCandidates rc ++ iceCandidates p)
            (iceRestart rc) (senders rc)).
Proof.
  intros H1 H2 H3 H4 s'. subst s'. unfold handleAnswer. rewrite H1, H2, H3.
  unfold setRemoteAnswer. rewrite H4. unfold addBufferedIceCandidates.
  cbn [objs set_objs set_pcs]. rewrite lookup_insert_eq. unfold set_flag.
  cbn [remoteDescriptionSet iceCandidates connection userId stream].
  destruct (iceCandidates p) as [|x q] eqn:Q; cbn [negb length Nat.eqb andb].
  - cbn [peersRef sent objs pcs set_objs set_pcs]. rewrite !lookup_insert_eq, app_nil_r. auto.
  - unfold update_pc. cbn [pcs set_pcs set_objs]. rewrite lookup_insert_eq.
    cbn [pcs set_pcs set_objs objs peersRef sent]. rewrite !lookup_insert_eq.
    rewrite (fold_addIceCandidate _ _ a) by (cbn; first [reflexivity | discriminate]). auto.
Qed.

(** The offer path of [handleOffer] for a user that already has a record,
    when the connection is not closed (in [have-local-offer] the pending
    local offer is rolled back). *)
Lemma offer_flushes s from pr p rc o :
  peersRef s !! from = Some pr -> objs s !! pr = Some p ->
  pcs s !! connection p = Some rc -> signalingState rc <> SignalingClosed ->
  let s' := handleOffer s o from in
  peersRef s' = peersRef s /\ sent s' = sent s ++ [SendAnswer "answer" from] /\
  objs s' !! pr = Some (mkPeer (userId p) (connection p) (stream p) [] true) /\
  pcs s' !! connection p =
    Some (mkRtc (owner rc) Stable (connectionState rc) (iceConnectionState rc)
            (Some "answer") (Some o) (appliedCandidates rc ++ iceCandidates p)
            (iceRestart rc) (senders rc)).
Proof.
  intros H1 H2 H3 H4 s'. subst s'. unfold handleOffer. rewrite H1, H2, H3.
  assert (E : exists ld, setRemoteOffer rc o =
    Some (mkRtc (owner rc) HaveRemoteOffer (connectionState rc) (iceConnectionState rc)
            ld (Some o) (appliedCandidates rc) (iceRestart rc) (senders rc)))
    by (unfold setRemoteOffer; destruct (signalingState rc); [eauto|eauto|eauto|congruence]).
  destruct E as [ld E]. rewrite E. unfold addBufferedIceCandidates.
  cbn [objs set_objs set_pcs]. rewrite lookup_insert_eq. unfold set_flag.
  cbn [remoteDescriptionSet iceCandidates connection userId stream].
  destruct (iceCandidates p) as [|x q] eqn:Q; cbn [negb length Nat.eqb andb];
    repeat progress (try unfold update_pc; cbn [pcs objs peersRef sent set_pcs set_objs emit];
                     rewrite ?lookup_insert_eq).
  - rewrite app_nil_r. auto.
  - rewrite (fold_addIceCandidate _ _ o) by (cbn; first [reflexivity | discriminate]). auto.
Qed.

(** ** Properties *)

(** Offering side: for a known user whose record has no remote description
    and whose connection has sent an offer, the ICE candidates that arrive
    before the answer are queued in arrival order; the answer applies the
    remote description, sets the flag, applies the queued candidates in
    order after those already applied and empties the queue; a candidate
    arriving after that is applied at once. Nothing is sent. *)
Theorem offerer_buffers_until_answer s from pr p rc cs a c :
  peersRef s !! from = Some pr -> objs s !! pr = Some p -> remoteDescriptionSet p = false ->
  pcs s !! connection p = Some rc -> signalingState rc = HaveLocalOffer ->
  let s' := handleIceCandidate
              (handleAnswer (fold_left (fun s c => handleIceCandidate s c from) cs s) a from)
              c from in
  option_map appliedCandidates (pcs s' !! connection p) =
    Some (appliedCandidates rc ++ iceCandidates p ++ cs ++ [c]) /\
  option_map signalingState (pcs s' !! connection p) = Some Stable /\
  option_map remoteDescription (pcs s' !! connection p) = Some (Some a) /\
  objs s' !! pr = Some (mkPeer (userId p) (connection p) (stream p) [] true) /\
  peersRef s' = peersRef s /\ sent s' = sent s.
Proof.
  intros H1 H2 H3 H4 H5 s'. subst s'.
  rewrite (ice_fold_buffer s from pr p cs H1 H2 H3).
  set (p1 := set_queue p (iceCandidates p ++ cs)).
  destruct (answer_flushes (set_objs s (<[pr := p1]> (objs s))) from pr p1 rc a)
    as (A1 & A2 & A3 & A4); cbn [peersRef objs pcs set_objs]; try rewrite lookup_insert_eq;
    auto.
  set (s3 := handleAnswer _ a from) in *.
  unfold handleIceCandidate. rewrite A1. cbn [peersRef set_objs]. rewrite H1, A3.
  cbn [negb remoteDescriptionSet connection].
  change (connection p1) with (connection p) in A4.
  rewrite update_pc_frame. cbn [objs peersRef sent pcs set_pcs].
  change (connection p1) with (connection p). rewrite update_pc_lookup, decide_True by reflexivity. rewrite A4.
  cbn [fmap option_fmap option_map addIceCandidate appliedCandidates signalingState
       remoteDescription localDescription].
  rewrite A1. cbn [peersRef sent set_objs] in *. rewrite A2.
  subst p1. cbn [iceCandidates set_queue]. rewrite <- !app_assoc.
  repeat split; try reflexivity. exact A3.
Qed.

Lemma offerer_buffers_until_answer_witness :
  let s := handleRoomUsers orch_init ["B"] in
  peersRef s !! "B" = Some 1 /\ objs s !! 1 = Some (mkPeer "B" 0 None [] false) /\
  pcs s !! 0 = Some (mkRtc "B" HaveLocalOffer CsNew IceNew (Some "offer") None [] false
                       [Some (mkTrack 1 Audio); Some (mkTrack 2 Video)]) /\
  let s' := handleIceCandidate
              (handleAnswer (fold_left (fun s c => handleIceCandidate s c "B") ["c1"; "c2"] s)
                 "answer" "B") "c3" "B" in
  option_map appliedCandidates (pcs s' !! 0) = Some ([] ++ [] ++ ["c1"; "c2"] ++ ["c3"]).
Proof.
  intros s.
  assert (H1 : peersRef s !! "B" = Some 1) by (vm_compute; reflexivity).
  assert (H2 : objs s !! 1 = Some (mkPeer "B" 0 None [] false)) by (vm_compute; reflexivity).
  assert (H4 : pcs s !! 0 = Some (mkRtc "B" HaveLocalOffer CsNew IceNew (Some "offer") None []
                                    false [Some (mkTrack 1 Audio); Some (mkTrack 2 Video)]))
    by (vm_compute; reflexivity).
  split; [exact H1|]. split; [exact H2|]. split; [exact H4|].
  exact (proj1 (offerer_buffers_until_answer s "B" 1 _ _ ["c1"; "c2"] "answer" "c3"
                  H1 H2 eq_refl H4 eq_refl)).
Defined.

(** Answering side: for a user that already has a record without a remote
    description (created on [user-joined]) and whose connection is
    [stable], the ICE candidates that arrive before the offer are queued in
    arrival order; the offer applies the remote description, sets the flag,
    applies the queue in order, empties it and sends exactly one answer to
    the offerer; a candidate arriving after that is applied at once. *)
Theorem answerer_buffers_until_offer s from pr p rc cs o c :
  peersRef s !! from = Some pr -> objs s !! pr = Some p -> remoteDescriptionSet p = false ->
  pcs s !! connection p = Some rc -> signalingState rc = Stable ->
  let s' := handleIceCandidate
              (handleOffer (fold_left (fun s c => handleIceCandidate s c from) cs s) o from)
              c from in
  option_map appliedCandidates (pcs s' !! connection p) =
    Some (appliedCandidates rc ++ iceCandidates p ++ cs ++ [c]) /\
  option_map signalingState (pcs s' !! connection p) = Some Stable /\
  option_map remoteDescription (pcs s' !! connection p) = Some (Some o) /\
  option_map localDescription (pcs s' !! connection p) = Some (Some "answer") /\
  objs s' !! pr = Some (mkPeer (userId p) (connection p) (stream p) [] true) /\
  peersRef s' = peersRef s /\ sent s' = sent s ++ [SendAnswer "answer" from].
Proof.
  intros H1 H2 H3 H4 H5 s'. subst s'.
  rewrite (ice_fold_buffer s from pr p cs H1 H2 H3).
  set (p1 := set_queue p (iceCandidates p ++ cs)).
  destruct (offer_flushes (set_objs s (<[pr := p1]> (objs s))) from pr p1 rc o)
    as (A1 & A2 & A3 & A4); cbn [peersRef objs pcs set_objs]; try rewrite lookup_insert_eq;
    auto; try (rewrite H5; discriminate).
  set (s3 := handleOffer _ o from) in *.
  unfold handleIceCandidate. rewrite A1. cbn [peersRef set_objs]. rewrite H1, A3.
  cbn [negb remoteDescriptionSet connection].
  change (connection p1) with (connection p) in A4.
  rewrite update_pc_frame. cbn [objs peersRef sent pcs set_pcs].
  change (connection p1) with (connection p). rewrite update_pc_lookup, decide_True by reflexivity. rewrite A4.
  cbn [fmap option_fmap option_map addIceCandidate appliedCandidates signalingState
       remoteDescription localDescription].
  rewrite A1. cbn [peersRef sent set_objs] in *. rewrite A2.
  subst p1. cbn [iceCandidates set_queue]. rewrite <- !app_assoc.
  repeat split; try reflexivity. exact A3.
Qed.

Lemma answerer_buffers_until_offer_witness :
  let s := handleUserJoined orch_init "B" in
  peersRef s !! "B" = Some 1 /\ objs s !! 1 = Some (mkPeer "B" 0 None [] false) /\
  pcs s !! 0 = Some (mkRtc "B" Stable CsNew IceNew None None [] false
                       [Some (mkTrack 1 Audio); Some (mkTrack 2 Video)]) /\
  let s' := handleIceCandidate
              (handleOffer (fold_left (fun s c => handleIceCandidate s c "B") ["c1"] s)
                 "o1" "B") "c2" "B" in
  option_map appliedCandidates (pcs s' !! 0) = Some ([] ++ [] ++ ["c1"] ++ ["c2"]).
Proof.
  intros s.
  assert (H1 : peersRef s !! "B" = Some 1) by (vm_compute; reflexivity).
  assert (H2 : objs s !! 1 = Some (mkPeer "B" 0 None [] false)) by (vm_compute; reflexivity).
  assert (H4 : pcs s !! 0 = Some (mkRtc "B" Stable CsNew IceNew None None [] false
                                    [Some (mkTrack 1 Audio); Some (mkTrack 2 Video)]))
    by (vm_compute; reflexivity).
  split; [exact H1|]. split; [exact H2|]. split; [exact H4|].
  exact (proj1 (answerer_buffers_until_offer s "B" 1 _ _ ["c1"] "o1" "c2"
                  H1 H2 eq_refl H4 eq_refl)).
Defined.

(** A user's [user-left]: the connection its record refers to is closed,
    every other connection is unchanged, its entry is removed from
    [peersRef] (the record objects stay in the heap) and nothing is sent.
    An answer or ICE candidate that arrives from that user afterwards is
    ignored. *)
Theorem user_left_closes s uid pr p rc :
  peersRef s !! uid = Some pr -> objs s !! pr = Some p -> pcs s !! connection p = Some rc ->
  let s' := handleUserLeft s uid in
  peersRef s' = delete uid (peersRef s) /\
  pcs s' !! connection p = Some (pc_close rc) /\
  (forall i, i <> connection p -> pcs s' !! i = pcs s !! i) /\
  objs s' = objs s /\ sent s' = sent s /\
  (forall a c, handleAnswer s' a uid = s' /\ handleIceCandidate s' c uid = s').
Proof.
  intros H1 H2 H3 s'.
  assert (E : s' = set_peersRef (set_pcs s (<[connection p := pc_close rc]> (pcs s)))
                                (delete uid (peersRef s))).
  { subst s'. unfold handleUserLeft, update_pc. rewrite H1, H2, H3. reflexivity. }
  assert (Hu : peersRef s' !! uid = None).
  { rewrite E. cbn [peersRef set_peersRef set_pcs]. apply lookup_delete_eq. }
  split; [rewrite E; reflexivity|].
  split; [rewrite E; cbn [pcs set_peersRef set_pcs]; apply lookup_insert_eq|].
  split; [intros i Hi; rewrite E; cbn [pcs set_peersRef set_pcs];
          apply lookup_insert_ne; congruence|].
  split; [rewrite E; reflexivity|].
  split; [rewrite E; reflexivity|].
  intros a c. unfold handleAnswer, handleIceCandidate. rewrite Hu. auto.
Qed.

Lemma user_left_closes_witness :
  let s := handleRoomUsers orch_init ["B"] in
  peersRef s !! "B" = Some 1 /\ objs s !! 1 = Some (mkPeer "B" 0 None [] false) /\
  pcs s !! 0 = Some (mkRtc "B" HaveLocalOffer CsNew IceNew (Some "offer") None [] false
                       [Some (mkTrack 1 Audio); Some (mkTrack 2 Video)]) /\
  peersRef (handleUserLeft s "B") = delete "B" (peersRef s).
Proof.
  intros s.
  assert (H1 : peersRef s !! "B" = Some 1) by (vm_compute; reflexivity).
  assert (H2 : objs s !! 1 = Some (mkPeer "B" 0 None [] false)) by (vm_compute; reflexivity).
  assert (H3 : pcs s !! 0 = Some (mkRtc "B" HaveLocalOffer CsNew IceNew (Some "offer") None []
                                    false [Some (mkTrack 1 Audio); Some (mkTrack 2 Video)]))
    by (vm_compute; reflexivity).
  split; [exact H1|]. split; [exact H2|]. split; [exact H3|].
  exact (proj1 (user_left_closes s "B" 1 _ _ H1 H2 H3)).
Defined.

(** An offer from a known user is rejected only when that user's connection
    is closed: the handler catches the error, the state is unchanged and no
    answer is sent. In every other signaling state, [have-local-offer]
    included (both sides offered at once; the browser rolls back the
    pending local offer), the offer is applied: the connection ends
    [stable] with the offer as remote and the answer as local description,
    the queued candidates are applied in order and the queue emptied, the
    flag is set and exactly one answer is sent to the offerer. *)
Theorem offer_answered_unless_closed s o from pr p rc :
  peersRef s !! from = Some pr -> objs s !! pr = Some p -> pcs s !! connection p = Some rc ->
  (signalingState rc = SignalingClosed -> handleOffer s o from = s) /\
  (signalingState rc <> SignalingClosed ->
   let s' := handleOffer s o from in
   sent s' = sent s ++ [SendAnswer "answer" from] /\ peersRef s' = peersRef s /\
   objs s' !! pr = Some (mkPeer (userId p) (connection p) (stream p) [] true) /\
   pcs s' !! connection p =
     Some (mkRtc (owner rc) Stable (connectionState rc) (iceConnectionState rc)
             (Some "answer") (Some o) (appliedCandidates rc ++ iceCandidates p)
             (iceRestart rc) (senders rc))).
Proof.
  intros H1 H2 H3. split.
  - intros H4. unfold handleOffer. rewrite H1, H2, H3. unfold setRemoteOffer. rewrite H4.
    reflexivity.
  - intros H4 s'. destruct (offer_flushes s from pr p rc o H1 H2 H3 H4) as (A1 & A2 & A3 & A4).
    auto.
Qed.

Lemma offer_answered_unless_closed_witness :
  let s := handleRoomUsers orch_init ["B"] in
  peersRef s !! "B" = Some 1 /\ objs s !! 1 = Some (mkPeer "B" 0 None [] false) /\
  pcs s !! 0 = Some (mkRtc "B" HaveLocalOffer CsNew IceNew (Some "offer") None [] false
                       [Some (mkTrack 1 Audio); Some (mkTrack 2 Video)]) /\
  sent (handleOffer s "offer-from-B" "B") = sent s ++ [SendAnswer "answer" "B"].
Proof.
  intros s.
  assert (H1 : peersRef s !! "B" = Some 1) by (vm_compute; reflexivity).
  assert (H2 : objs s !! 1 = Some (mkPeer "B" 0 None [] false)) by (vm_compute; reflexivity).
  assert (H3 : pcs s !! 0 = Some (mkRtc "B" HaveLocalOffer CsNew IceNew (Some "offer") None []
                                    false [Some (mkTrack 1 Audio); Some (mkTrack 2 Video)]))
    by (vm_compute; reflexivity).
  split; [exact H1|]. split; [exact H2|]. split; [exact H3|].
  exact (proj1 (proj2 (offer_answered_unless_closed s "offer-from-B" "B" 1 _ _ H1 H2 H3)
                  ltac:(discriminate))).
Defined.

(** [handleAnswer] does nothing unless the sender's connection is in
    [have-local-offer]. *)
Lemma answer_ignored s a from pr p rc :
  peersRef s !! from = Some pr -> objs s !! pr = Some p -> pcs s !! connection p = Some rc ->
  signalingState rc <> HaveLocalOffer -> handleAnswer s a from = s.
Proof.
  intros H1 H2 H3 H4. unfold handleAnswer. rewrite H1, H2, H3.
  unfold setRemoteAnswer. destruct (signalingState rc); congruence.
Qed.

(** An answer to an offer takes the connection back to [stable]; a second
    answer from the same user (a duplicate or a late one) is then rejected
    and changes nothing. *)
Theorem second_answer_ignored s from pr p rc a a' :
  peersRef s !! from = Some pr -> objs s !! pr = Some p ->
  pcs s !! connection p = Some rc -> signalingState rc = HaveLocalOffer ->
  handleAnswer (handleAnswer s a from) a' from = handleAnswer s a from.
Proof.
  intros H1 H2 H3 H4.
  destruct (answer_flushes s from pr p rc a H1 H2 H3 H4) as (A1 & _ & A3 & A4).
  eapply answer_ignored.
  - rewrite A1. exact H1.
  - exact A3.
  - exact A4.
  - discriminate.
Qed.

Lemma second_answer_ignored_witness :
  let s := handleRoomUsers orch_init ["B"] in
  peersRef s !! "B" = Some 1 /\ objs s !! 1 = Some (mkPeer "B" 0 None [] false) /\
  pcs s !! 0 = Some (mkRtc "B" HaveLocalOffer CsNew IceNew (Some "offer") None [] false
                       [Some (mkTrack 1 Audio); Some (mkTrack 2 Video)]) /\
  handleAnswer (handleAnswer s "a1" "B") "a2" "B" = handleAnswer s "a1" "B".
Proof.
  intros s.
  assert (H1 : peersRef s !! "B" = Some 1) by (vm_compute; reflexivity).
  assert (H2 : objs s !! 1 = Some (mkPeer "B" 0 None [] false)) by (vm_compute; reflexivity).
  assert (H3 : pcs s !! 0 = Some (mkRtc "B" HaveLocalOffer CsNew IceNew (Some "offer") None []
                                    false [Some (mkTrack 1 Audio); Some (mkTrack 2 Video)]))
    by (vm_compute; reflexivity).
  split; [exact H1|]. split; [exact H2|]. split; [exact H3|].
  exact (second_answer_ignored s "B" 1 _ _ "a1" "a2" H1 H2 H3 eq_refl).
Defined.

(** [createPeerConnection] for a user that already has a record: the
    connection that record refers to is closed, a new connection is created
    under the next free reference with a sender for each enabled local
    track, and a fresh record (no stream, empty queue, no remote
    description) replaces the entry in [peersRef]. Every other connection
    is unchanged and nothing is sent. *)
Theorem recreate_closes_old s uid pr p rc :
  peersRef s !! uid = Some pr -> objs s !! pr = Some p -> pcs s !! connection p = Some rc ->
  connection p <> next_ref s ->
  let r := createPeerConnection s uid in
  snd r = next_ref s /\
  peersRef (fst r) = <[uid := S (next_ref s)]> (peersRef s) /\
  objs (fst r) !! S (next_ref s) = Some (mkPeer uid (next_ref s) None [] false) /\
  pcs (fst r) !! next_ref s = Some (new_rtc uid (local_senders s)) /\
  pcs (fst r) !! connection p = Some (pc_close rc) /\
  (forall i, i <> connection p -> i <> next_ref s -> pcs (fst r) !! i = pcs s !! i) /\
  sent (fst r) = sent s.
Proof.
  intros H1 H2 H3 H4 r.
  assert (E : r = (set_peersRef
                     (set_objs
                        (set_next_ref
                           (set_pcs (set_next_ref (set_pcs s (<[connection p := pc_close rc]> (pcs s)))
                                                  (S (next_ref s)))
                                    (<[next_ref s := new_rtc uid (local_senders s)]>
                                       (<[connection p := pc_close rc]> (pcs s))))
                           (S (S (next_ref s))))
                        (<[S (next_ref s) := mkPeer uid (next_ref s) None [] false]> (objs s)))
                     (<[uid := S (next_ref s)]> (peersRef s)), next_ref s)).
  { subst r. unfold createPeerConnection, update_pc, fresh. rewrite H1, H2, H3. reflexivity. }
  rewrite E. cbn [fst snd peersRef objs pcs sent set_peersRef set_objs set_next_ref set_pcs].
  split; [reflexivity|]. split; [reflexivity|].
  split; [apply lookup_insert_eq|]. split; [apply lookup_insert_eq|].
  split; [rewrite lookup_insert_ne by congruence; apply lookup_insert_eq|].
  split; [|reflexivity].
  intros i Hi Hn. rewrite !lookup_insert_ne by congruence. reflexivity.
Qed.

Lemma recreate_closes_old_witness :
  let s := handleRoomUsers orch_init ["B"] in
  peersRef s !! "B" = Some 1 /\ objs s !! 1 = Some (mkPeer "B" 0 None [] false) /\
  pcs s !! 0 = Some (mkRtc "B" HaveLocalOffer CsNew IceNew (Some "offer") None [] false
                       [Some (mkTrack 1 Audio); Some (mkTrack 2 Video)]) /\
  next_ref s = 2 /\ snd (createPeerConnection s "B") = 2.
Proof.
  intros s.
  assert (H1 : peersRef s !! "B" = Some 1) by (vm_compute; reflexivity).
  assert (H2 : objs s !! 1 = Some (mkPeer "B" 0 None [] false)) by (vm_compute; reflexivity).
  assert (H3 : pcs s !! 0 = Some (mkRtc "B" HaveLocalOffer CsNew IceNew (Some "offer") None []
                                    false [Some (mkTrack 1 Audio); Some (mkTrack 2 Video)]))
    by (vm_compute; reflexivity).
  assert (H4 : next_ref s = 2) by (vm_compute; reflexivity).
  split; [exact H1|]. split; [exact H2|]. split; [exact H3|]. split; [exact H4|].
  rewrite <- H4.
  exact (proj1 (recreate_closes_old s "B" 1 _ _ H1 H2 H3 ltac:(rewrite H4; discriminate))).
Defined.

(** The body of the [room-users] loop for a user without a record. *)
Lemma offerTo_new s u :
  peersRef s !! u = None ->
  let s' := offerTo s u in
  peersRef s' = <[u := S (next_ref s)]> (peersRef s) /\
  sent s' = sent s ++ [SendOffer "offer" u] /\
  next_ref s' = S (S (next_ref s)) /\
  objs s' !! S (next_ref s) = Some (mkPeer u (next_ref s) None [] false) /\
  pcs s' !! next_ref s = Some (setLocalOffer (new_rtc u (local_senders s)) "offer").
Proof.
  intros H s'. subst s'. unfold offerTo. rewrite H.
  unfold createPeerConnection. rewrite H. unfold fresh.
  cbn [pcs objs peersRef next_ref set_objs set_peersRef set_next_ref set_pcs].
  rewrite lookup_insert_eq. unfold update_pc.
  cbn [pcs objs peersRef next_ref sent set_objs set_peersRef set_next_ref set_pcs emit].
  rewrite !lookup_insert_eq.
  cbn [pcs objs peersRef next_ref sent set_objs set_peersRef set_next_ref set_pcs emit].
  rewrite !lookup_insert_eq. repeat split; reflexivity.
Qed.

(** [room-users] with a list of distinct user ids: exactly one offer is
    sent to each listed user that had no record, in list order; each listed
    user has an entry in [peersRef] afterwards; the entries of the other
    users, and the entries that already existed, are unchanged. *)
Theorem room_users_offers s users :
  NoDup users ->
  let s' := handleRoomUsers s users in
  sent s' = sent s ++ List.map (fun u => SendOffer "offer" u)
                       (List.filter (fun u => bool_decide (peersRef s !! u = None)) users) /\
  (forall u, In u users -> is_Some (peersRef s' !! u)) /\
  (forall u, ~ In u users -> peersRef s' !! u = peersRef s !! u) /\
  (forall u pr, peersRef s !! u = Some pr -> peersRef s' !! u = Some pr).
Proof.
  unfold handleRoomUsers. intros Hnd. revert s.
  induction Hnd as [|u us Hu Hnd IH]; intros s; cbn [fold_left List.filter List.map].
  - rewrite app_nil_r. split; [reflexivity|]. split; [intros u []|]. auto.
  - destruct (peersRef s !! u) as [pr|] eqn:Hs.
    + rewrite (proj1 (existing_peer_untouched s u pr Hs)).
      rewrite bool_decide_false by congruence.
      destruct (IH s) as (S1 & S2 & S3 & S4).
      split; [exact S1|]. split; [|split].
      * intros v [<-|Hv]; [rewrite (S4 _ _ Hs); eauto|auto].
      * intros v Hv. apply S3. intros Hin. apply Hv. right. exact Hin.
      * exact S4.
    + destruct (offerTo_new s u Hs) as (O1 & O2 & _).
      rewrite bool_decide_true by reflexivity.
      destruct (IH (offerTo s u)) as (S1 & S2 & S3 & S4).
      assert (Hf : forall v, In v us -> peersRef (offerTo s u) !! v = peersRef s !! v).
      { intros v Hv. rewrite O1. apply lookup_insert_ne. intros <-.
        apply Hu. apply list_elem_of_In. exact Hv. }
      split; [|split; [|split]].
      * rewrite S1, O2, <- app_assoc.
        rewrite (filter_ext_in _ (fun v => bool_decide (peersRef s !! v = None)) us).
        -- reflexivity.
        -- intros v Hv. rewrite Hf by exact Hv. reflexivity.
      * intros v [Hv|Hv]; [subst v|auto].
        rewrite (S4 u (S (next_ref s))); [eauto|]. rewrite O1. apply lookup_insert_eq.
      * intros v Hv. rewrite S3 by (intros Hin; apply Hv; right; exact Hin).
        rewrite O1. apply lookup_insert_ne. intros ->. apply Hv. left. reflexivity.
      * intros v pr Hv. apply S4. rewrite O1, lookup_insert_ne by congruence. exact Hv.
Qed.

Lemma room_users_offers_witness :
  let s := handleUserJoined orch_init "B" in
  NoDup ["B"; "C"] /\
  sent (handleRoomUsers s ["B"; "C"]) = sent s ++ [SendOffer "offer" "C"].
Proof.
  intros s.
  assert (Hnd : NoDup ["B"; "C"]) by (apply (bool_decide_unpack _); vm_compute; reflexivity).
  split; [exact Hnd|].
  rewrite (proj1 (room_users_offers s ["B"; "C"] Hnd)). vm_compute. reflexivity.
Defined.

(** [user-joined] for a user without a record: a connection is created in
    [stable] state with no description and a sender for each enabled local
    track, a fresh record is stored for the user, every other connection is
    unchanged, and no offer (nothing at all) is sent: the new user is
    expected to send the offer. *)
Theorem user_joined_waits s uid :
  peersRef s !! uid = None ->
  let s' := handleUserJoined s uid in
  sent s' = sent s /\
  peersRef s' = <[uid := S (next_ref s)]> (peersRef s) /\
  objs s' !! S (next_ref s) = Some (mkPeer uid (next_ref s) None [] false) /\
  pcs s' !! next_ref s = Some (new_rtc uid (local_senders s)) /\
  (forall i, i <> next_ref s -> pcs s' !! i = pcs s !! i).
Proof.
  intros H s'. subst s'. unfold handleUserJoined. rewrite H.
  unfold createPeerConnection. rewrite H. unfold fresh.
  cbn [fst pcs objs peersRef next_ref sent set_objs set_peersRef set_next_ref set_pcs].
  split; [reflexivity|]. split; [reflexivity|].
  split; [apply lookup_insert_eq|]. split; [apply lookup_insert_eq|].
  intros i Hi. apply lookup_insert_ne. congruence.
Qed.

Lemma user_joined_waits_witness :
  let s := handleRoomUsers orch_init ["B"] in
  peersRef s !! "C" = None /\ sent (handleUserJoined s "C") = [SendOffer "offer" "B"].
Proof.
  intros s.
  assert (H : peersRef s !! "C" = None) by (vm_compute; reflexivity).
  split; [exact H|].
  rewrite (proj1 (user_joined_waits s "C" H)). vm_compute. reflexivity.
Defined.

(** [forEach] of a toggle, as a lookup on each connection. *)
Lemma replace_in_peers_spec s k t :
  kind_eqb (kind t) k = true ->
  let s' := replace_in_peers s k t in
  s' = set_pcs s (pcs s') /\
  forall i, pcs s' !! i =
    if live_dec (map_to_list (peersRef s)) (objs s) i
    then replaceTrack_kind k t <$> pcs s !! i else pcs s !! i.
Proof.
  intros Hk s'.
  destruct (replace_fold_spec k t (map_to_list (peersRef s)) s Hk) as (A & B & C).
  split; [exact A|]. intros i.
  destruct (live_dec (map_to_list (peersRef s)) (objs s) i) as [L|L]; [apply B|apply C]; exact L.
Qed.

(** A toggle, written out. *)
Lemma toggle_unfold s k tracks t :
  localStreamRef s = Some tracks -> first_track k tracks = Some t ->
  match k with Audio => toggleAudio s | Video => toggleVideo s end =
  replace_in_peers
    (mkOrch (peersRef s) (objs s) (pcs s) (next_ref s) (Some tracks)
       (<[track_id t := negb (track_enabled s t)]> (trackEnabled s))
       (match k with Audio => negb (track_enabled s t) | Video => isAudioEnabled s end)
       (match k with Audio => isVideoEnabled s | Video => negb (track_enabled s t) end)
       (sent s)) k t.
Proof.
  intros H1 H2. destruct k; [unfold toggleAudio|unfold toggleVideo]; rewrite H1, H2;
    unfold set_isAudioEnabled, set_isVideoEnabled, set_trackEnabled;
    cbn [peersRef objs pcs next_ref localStreamRef trackEnabled isAudioEnabled isVideoEnabled sent];
    rewrite H1; reflexivity.
Qed.

(** Toggling the same kind twice: the track's [enabled] flag is back to its
    first value and the matching [is..Enabled] flag ends equal to it (not
    to its own first value); the connections are as after one toggle, since
    the second [replaceTrack] puts the same track in the same senders; no
    record is touched and nothing is sent. *)
Theorem toggle_twice s k tracks t :
  localStreamRef s = Some tracks -> first_track k tracks = Some t ->
  let tg x := match k with Audio => toggleAudio x | Video => toggleVideo x end in
  let flag x := match k with Audio => isAudioEnabled x | Video => isVideoEnabled x end in
  track_enabled (tg (tg s)) t = track_enabled s t /\
  flag (tg (tg s)) = track_enabled s t /\
  pcs (tg (tg s)) = pcs (tg s) /\
  peersRef (tg (tg s)) = peersRef s /\ objs (tg (tg s)) = objs s /\
  sent (tg (tg s)) = sent s.
Proof.
  intros H1 H2 tg flag.
  assert (Hk : kind_eqb (kind t) k = true).
  { unfold first_track in H2. apply find_some in H2. exact (proj2 H2). }
  assert (E1 := toggle_unfold s k tracks t H1 H2). fold (tg s) in E1.
  set (x1 := mkOrch _ _ _ _ _ _ _ _ _) in E1.
  destruct (replace_in_peers_spec x1 k t Hk) as [F1 P1]. rewrite <- E1 in F1, P1.
  set (s1 := tg s) in *.
  assert (L1 : localStreamRef s1 = Some tracks) by (rewrite F1; reflexivity).
  assert (T1 : track_enabled s1 t = negb (track_enabled s t)).
  { unfold track_enabled at 1. rewrite F1. cbn [trackEnabled set_pcs]. subst x1.
    cbn [trackEnabled]. rewrite lookup_insert_eq. reflexivity. }
  assert (R1 : peersRef s1 = peersRef s) by (rewrite F1; reflexivity).
  assert (O1 : objs s1 = objs s) by (rewrite F1; reflexivity).
  assert (Z1 : sent s1 = sent s) by (rewrite F1; reflexivity).
  assert (E2 := toggle_unfold s1 k tracks t L1 H2). fold (tg s1) in E2.
  set (x2 := mkOrch _ _ _ _ _ _ _ _ _) in E2.
  destruct (replace_in_peers_spec x2 k t Hk) as [F2 P2]. rewrite <- E2 in F2, P2.
  set (s2 := tg s1) in *.
  split; [|split; [|split; [|split; [|split]]]].
  - unfold track_enabled at 1. rewrite F2. cbn [trackEnabled set_pcs]. subst x2.
    cbn [trackEnabled]. rewrite lookup_insert_eq. cbn [default].
    rewrite T1. apply negb_involutive.
  - subst flag. rewrite F2. destruct k; cbn [isAudioEnabled isVideoEnabled set_pcs]; subst x2;
      rewrite T1; apply negb_involutive.
  - apply map_eq. intros i. rewrite P2. subst x2.
    cbn [peersRef objs pcs]. rewrite R1, O1, P1. subst x1. cbn [peersRef objs pcs].
    destruct (live_dec (map_to_list (peersRef s)) (objs s) i); [|reflexivity].
    destruct (pcs s !! i); cbn [fmap option_fmap option_map]; [|reflexivity].
    rewrite replaceTrack_kind_idem by exact Hk. reflexivity.
  - rewrite F2. exact R1.
  - rewrite F2. exact O1.
  - rewrite F2. exact Z1.
Qed.

Lemma toggle_twice_witness :
  let s := handleRoomUsers orch_init ["B"] in
  localStreamRef s = Some cam_tracks /\ first_track Audio cam_tracks = Some (mkTrack 1 Audio) /\
  isAudioEnabled (toggleAudio (toggleAudio s)) = true.
Proof.
  intros s.
  assert (H1 : localStreamRef s = Some cam_tracks) by (vm_compute; reflexivity).
  assert (H2 : first_track Audio cam_tracks = Some (mkTrack 1 Audio)) by reflexivity.
  split; [exact H1|]. split; [exact H2|].
  exact (proj1 (proj2 (toggle_twice s Audio cam_tracks _ H1 H2))).
Defined.

(** [cleanup]: every connection reached from [peersRef] is closed, every
    other connection is unchanged, [peersRef] is emptied and the local
    stream dropped; [hasJoinedRoom], [isConnected] and [socketRef] are
    reset; nothing is sent or emitted. An answer or ICE candidate handled
    afterwards, from any user, changes nothing. *)
Theorem cleanup_closes_all c :
  let c' := cleanup c in
  peersRef (o c') = ∅ /\ localStreamRef (o c') = None /\
  hasJoinedRoom c' = false /\ isConnected c' = false /\ socketRef c' = None /\
  emitted c' = emitted c /\ sent (o c') = sent (o c) /\ objs (o c') = objs (o c) /\
  (forall uid pr p, peersRef (o c) !! uid = Some pr -> objs (o c) !! pr = Some p ->
     pcs (o c') !! connection p = pc_close <$> pcs (o c) !! connection p) /\
  (forall i, (forall uid pr p, peersRef (o c) !! uid = Some pr -> objs (o c) !! pr = Some p ->
                connection p <> i) ->
     pcs (o c') !! i = pcs (o c) !! i) /\
  (forall a cand from, handleAnswer (o c') a from = o c' /\
                       handleIceCandidate (o c') cand from = o c').
Proof.
  intros c'.
  assert (Hf : forall rc, pc_close (pc_close rc) = pc_close rc) by reflexivity.
  destruct (update_fold_spec pc_close (map_to_list (peersRef (o c))) (o c) Hf)
    as (F & Hin & Hout).
  set (s1 := fold_left _ _ (o c)) in F, Hin, Hout.
  assert (E : o c' = set_localStreamRef (set_peersRef s1 ∅) None) by reflexivity.
  assert (PR : peersRef (o c') = ∅) by (rewrite E; reflexivity).
  assert (PC : pcs (o c') = pcs s1) by (rewrite E; reflexivity).
  split; [exact PR|]. split; [rewrite E; reflexivity|].
  split; [reflexivity|]. split; [reflexivity|]. split; [reflexivity|].
  split; [reflexivity|].
  split; [rewrite E, F; reflexivity|]. split; [rewrite E, F; reflexivity|].
  split; [|split].
  - intros uid pr p H1 H2. rewrite PC. apply Hin.
    exists (uid, pr), p. split; [apply elem_of_map_to_list; exact H1|auto].
  - intros i Hn. rewrite PC. apply Hout. intros (e & p & He & Hp & Hc).
    apply elem_of_map_to_list' in He. exact (Hn _ _ _ He Hp Hc).
  - intros a cand from. unfold handleAnswer, handleIceCandidate.
    rewrite PR, lookup_empty. auto.
Qed.

(** [cleanup] disconnects the current socket: it is marked inactive, so its
    ['connect'] handler no longer runs when it connects, and no room join
    is emitted on it. *)
Theorem cleanup_disconnects_socket roomId c k sk :
  socketRef c = Some k -> sockets c !! k = Some sk ->
  sockets (cleanup c) !! k = Some (mkSock (captured_hasJoinedRoom sk) false false) /\
  socket_connect roomId (cleanup c) k = cleanup c.
Proof.
  intros H1 H2.
  assert (E : sockets (cleanup c) !! k = Some (mkSock (captured_hasJoinedRoom sk) false false)).
  { unfold cleanup. cbn [sockets]. rewrite H1. unfold sock_disconnect. rewrite H2.
    apply list_lookup_insert_eq. eapply lookup_lt_Some. exact H2. }
  split; [exact E|]. unfold socket_connect. rewrite E. reflexivity.
Qed.

Lemma cleanup_disconnects_socket_witness :
  let c := crun "room1" comp_init [Commit] in
  socketRef c = Some 0 /\ sockets c !! 0 = Some (mkSock false false true) /\
  socket_connect "room1" (cleanup c) 0 = cleanup c.
Proof.
  intros c.
  assert (H1 : socketRef c = Some 0) by (vm_compute; reflexivity).
  assert (H2 : sockets c !! 0 = Some (mkSock false false true)) by (vm_compute; reflexivity).
  split; [exact H1|]. split; [exact H2|].
  exact (proj2 (cleanup_disconnects_socket "room1" c 0 _ H1 H2)).
Defined.

Lemma update_pc_fields s i f :
  peersRef (update_pc s i f) = peersRef s /\ objs (update_pc s i f) = objs s /\
  next_ref (update_pc s i f) = next_ref s /\ sent (update_pc s i f) = sent s.
Proof. rewrite update_pc_frame. auto. Qed.

(** The connection-state and ICE-connection-state handlers never send a
    message and never create, change or remove a [PeerConnection] record
    object; the ICE handler does not touch [peersRef] either. *)
Theorem state_handlers_never_send s pcr x :
  let s1 := connection_state_change s pcr x in
  let s2 := oniceconnectionstatechange s pcr in
  sent s1 = sent s /\ objs s1 = objs s /\ next_ref s1 = next_ref s /\
  sent s2 = sent s /\ objs s2 = objs s /\ next_ref s2 = next_ref s /\
  peersRef s2 = peersRef s.
Proof.
  intros s1 s2.
  set (u := update_pc s pcr (fun rc => set_connectionState rc x)).
  destruct (update_pc_fields s pcr (fun rc => set_connectionState rc x)) as (U1 & U2 & U3 & U4).
  fold u in U1, U2, U3, U4.
  assert (A : sent s1 = sent u /\ objs s1 = objs u /\ next_ref s1 = next_ref u).
  { subst s1. unfold connection_state_change, onconnectionstatechange. fold u.
    repeat case_match; try (destruct (update_pc_fields u (connection p) restartIce) as (? & ? & ? & ?));
      auto. }
  destruct A as (A1 & A2 & A3). rewrite A1, A2, A3, U2, U3, U4.
  split; [reflexivity|]. split; [reflexivity|]. split; [reflexivity|].
  subst s2. unfold oniceconnectionstatechange.
  destruct (update_pc_fields s pcr restartIce) as (V1 & V2 & V3 & V4).
  repeat case_match; auto.
Qed.

End ClientExtras.
